(** * dim web client: the hover preview of a media card

    A shallow embedding of the two components that make up the hover
    preview of the catalogue grid,

    - [CardPopup] (ui/src/Components/CardList/CardPopup.jsx): the floating
      panel, with its placement effect, its metadata fetch effect and the
      values it formats for display;
    - [Card] (web_ui, the class component that owns the hover timer and the
      accent colours),

    together with the properties of their behaviour.

    Conventions.  JavaScript numbers are modelled by [Z] or [N]; every number
    the embedded code computes with is an integer (pixel coordinates, a
    duration in seconds, an HTTP status), far below 2^53, where the
    arithmetic of doubles is exact.  A [throw] (a TypeError on a property
    read of [null] or [undefined]) is a value [Throw] of the type [result].
    Arrays that the code mutates in place live in a store indexed by
    references, so that aliasing is visible. *)

From Stdlib Require Import Ascii.
From stdpp Require Import gmap strings list pretty.

Set Warnings "-register-all".

(** ** JavaScript values *)

Module JS.

(** The outcome of evaluating an expression that may throw. *)
Inductive result (A : Type) : Type :=
| Ok (a : A)
| Throw.
Arguments Ok {A} a.
Arguments Throw {A}.

(** Sequencing: a throw skips the rest ([x ← r; k] below). *)
Global Instance result_bind : MBind result := λ A B k r,
  match r with
  | Ok a => k a
  | Throw => Throw
  end.

(** The values a decoded JSON document is made of, plus [undefined]. *)
Inductive value : Type :=
| VUndefined
| VNull
| VBool (b : bool)
| VNum (n : Z)
| VStr (s : string)
| VArr (items : list value)
| VObj (fields : list (string * value)).

(** ToBoolean. *)
Definition truthy (v : value) : bool :=
  match v with
  | VUndefined | VNull => false
  | VBool b => b
  | VNum n => negb (n =? 0)%Z
  | VStr s => negb (String.eqb s "")
  | VArr _ | VObj _ => true
  end.

(** The own property [k] of an object literal given by its fields. *)
Fixpoint field (k : string) (fields : list (string * value)) : value :=
  match fields with
  | [] => VUndefined
  | (k', v) :: rest => if String.eqb k k' then v else field k rest
  end.

(** [v.k] for a property name [k] that is not an array index.  Reading a
    property of [undefined] or [null] throws; a primitive or an array has
    no own property other than [length]. *)
Definition get (v : value) (k : string) : result value :=
  match v with
  | VUndefined | VNull => Throw
  | VObj fields => Ok (field k fields)
  | VArr items =>
      Ok (if String.eqb k "length" then VNum (Z.of_nat (length items))
          else VUndefined)
  | VStr s =>
      Ok (if String.eqb k "length" then VNum (Z.of_nat (String.length s))
          else VUndefined)
  | VBool _ | VNum _ => Ok VUndefined
  end.

(** [v[i]] for a literal index [i].  Out of range an array yields
    [undefined]; an object is looked up under the decimal name of [i]. *)
Definition index (v : value) (i : nat) : result value :=
  match v with
  | VUndefined | VNull => Throw
  | VArr items => Ok (default VUndefined (items !! i))
  | VObj fields => Ok (field (pretty (N.of_nat i)) fields)
  | VStr s =>
      Ok (match String.get i s with
          | Some c => VStr (String c "")
          | None => VUndefined
          end)
  | VBool _ | VNum _ => Ok VUndefined
  end.

(** [String.prototype.slice(start)] with the end left out: a negative
    [start] counts from the end of the string, and both ends are clipped
    to the string. *)
Definition slice (start : Z) (s : string) : string :=
  let len := Z.of_nat (String.length s) in
  let from := if (start <? 0)%Z then Z.max (len + start) 0
              else Z.min start len in
  String.substring (Z.to_nat from) (Z.to_nat (len - from)) s.

(** ToString of a non-negative integer. *)
Definition number_to_string (n : N) : string := pretty n.

End JS.

Import JS.

(** ** CardPopup.jsx *)

Module CardPopup.

(** *** Placement (the first effect, lines 24-32) *)

(** The part of [getBoundingClientRect()] the effect reads. *)
Record rect := { x : Z; width : Z }.

(** The three [useState] cells of the component. *)
Record popup_state := {
  st_overflowing : bool;
  mediaVersions : value;
  direction : string
}.

(** The initial values given to [useState]. *)
Definition initial : popup_state :=
  {| st_overflowing := false;
     mediaVersions := VArr [];
     direction := "card-popup-right" |}.

(** [const overflowing = (x + width > window.innerWidth - 5)]. *)
Definition overflowing (r : rect) (innerWidth : Z) : bool :=
  (x r + width r >? innerWidth - 5)%Z.

(** The body of the effect: nothing unless the panel overflows, else both
    setters. *)
Definition placement_effect (r : rect) (innerWidth : Z)
    (st : popup_state) : popup_state :=
  if negb (overflowing r innerWidth) then st
  else {| st_overflowing := true;
          mediaVersions := mediaVersions st;
          direction := "card-popup-left" |}.

(** *** Length (lines 75-79) *)

Record length_parts := { hh : string; mm : string; ss : string }.

(** [("0" + Math.floor(n)).slice(-2)] for an integer [n]. *)
Definition pad2 (n : N) : string :=
  slice (-2) ("0" +:+ number_to_string n).

Definition length_of (duration : N) : length_parts :=
  {| hh := pad2 (duration `div` 3600)%N;
     mm := pad2 ((duration `mod` 3600) `div` 60)%N;
     ss := pad2 ((duration `mod` 3600) `mod` 60)%N |}.

(** [<p>{length.hh}:{length.mm}:{length.ss}</p>] (line 124). *)
Definition render_length (duration : N) : string :=
  let l := length_of duration in
  hh l +:+ ":" +:+ mm l +:+ ":" +:+ ss l.

(** *** Description (lines 101-106) *)

(** The description of a media summary: a string, [null], or missing
    from the object altogether. *)
Inductive description : Type :=
| DUndefined
| DNull
| DString (s : string).

Definition description_value (d : description) : value :=
  match d with
  | DUndefined => VUndefined
  | DNull => VNull
  | DString s => VStr s
  end.

(** What the description section shows: the description handed to
    [TruncText], or a paragraph of fixed text. *)
Inductive description_view : Type :=
| TruncText (content : value)
| Paragraph (text : string).

(** [description !== null]. *)
Definition not_null (d : description) : bool :=
  match d with
  | DNull => false
  | _ => true
  end.

(** [len > 0], for the [length] of a string. *)
Definition positive_length (len : value) : bool :=
  match len with
  | VNum n => (n >? 0)%Z
  | _ => false
  end.

(** [description !== null && description.length > 0 ? ... : ...].  The
    right operand of [&&] is evaluated only when the left one holds, and
    it reads a property of [description]. *)
Definition render_description (d : description) : result description_view :=
  if not_null d then
    len ← get (description_value d) "length";
    if positive_length len then Ok (TruncText (description_value d))
    else Ok (Paragraph "No description found.")
  else Ok (Paragraph "No description found.").

(** *** Genres (lines 81-83 and 110-119) *)

(** [genres] is the array object held by [props.data]: the component gets
    a reference to it, not a copy.  The store maps the references of
    such arrays to their current contents. *)
Definition ref := positive.

Abbreviation store := (gmap ref (list string)).

Record link := { to : string; label : string }.

Section Genres.

(** The browser's [encodeURIComponent]. *)
Variable encodeURIComponent : string → string.

(** [if (genres.length > 3) { genres.length = 3 }]: assigning a smaller
    [length] to an array removes its elements from that index on.  A
    reference to nothing stands for [genres] being [undefined], whose
    [length] cannot be read. *)
Definition truncate_genres (genres : ref) (σ : store) : result store :=
  match σ !! genres with
  | None => Throw
  | Some items =>
      if 3 <? length items then Ok (<[genres := take 3 items]> σ)
      else Ok σ
  end.

(** [genres.map((genre, i) => <Link to=...>{genre}</Link>)]. *)
Definition genre_links (items : list string) : list link :=
  (λ genre, {| to := "/search?genre=" +:+ encodeURIComponent genre;
               label := genre |}) <$> items.

(** The part of one call of the component that deals with genres: the
    links it returns and the store it leaves. *)
Definition render_genres (genres : ref) (σ : store)
    : result (list link * store) :=
  σ' ← truncate_genres genres σ;
  match σ' !! genres with
  | None => Throw
  | Some items => Ok (genre_links items, σ')
  end.

End Genres.

(** *** Media versions (the second effect, lines 48-73) *)

(** What the effect reads of the [Response]: its status, and the outcome
    of [res.json()], which throws on a body that is not JSON. *)
Record response := { status : Z; json : result value }.

(** The async function from line 59 on, once the response is there: the
    argument of the call of [setMediaVersions] it ends with, [Ok None]
    when it returns before any call, [Throw] when it throws before any
    call (its promise is then rejected, and nobody looks at it). *)
Definition versions_of (res : response) : result (option value) :=
  if negb (status res =? 200)%Z then Ok None
  else
    payload ← json res;
    error ← get payload "error";
    if truthy error then Ok None
    else
      seasons ← get payload "seasons";
      if truthy seasons then
        season ← index seasons 0;
        episodes ← get season "episodes";
        episode ← index episodes 0;
        versions ← get episode "versions";
        Ok (Some versions)
      else
        versions ← get payload "versions";
        Ok (Some versions).

(** [setMediaVersions v]. *)
Definition setMediaVersions (v : value) (st : popup_state) : popup_state :=
  {| st_overflowing := st_overflowing st;
     mediaVersions := v;
     direction := direction st |}.

(** The state of a mounted popup after the response [res] has been dealt
    with. *)
Definition receive (res : response) (st : popup_state) : popup_state :=
  match versions_of res with
  | Ok (Some v) => setMediaVersions v st
  | Ok None | Throw => st
  end.

(** *** The popups of a page

    React keeps the state cells of a function component per mounted
    instance.  The async function of the effect closes over the
    [setMediaVersions] of the instance that ran the effect; the effect
    returns no cleanup function, so a request stays in flight when the
    props change or the instance goes away.  A state setter of an
    instance that is no longer mounted changes nothing. *)

(** The props the effect depends on: [props.data.id] and
    [props.auth.token], its dependency array. *)
Record props := { item_id : nat; token : string }.

Global Instance props_eq_dec : EqDecision props.
Proof. solve_decision. Defined.

Record instance := { inst_props : props; inst_state : popup_state }.

(** A request in flight: the instance whose effect sent it, and the
    props it was sent for. *)
Record request := { origin : nat; sent_for : props }.

Global Instance request_eq_dec : EqDecision request.
Proof. solve_decision. Defined.

Record page := {
  instances : gmap nat instance;
  next_instance : nat;
  in_flight : list request
}.

Definition empty_page : page :=
  {| instances := ∅; next_instance := 0; in_flight := [] |}.

(** A popup is mounted: a new instance with the initial state; after its
    first render the effect runs and sends a request. *)
Definition mount (pr : props) (pg : page) : page :=
  let k := next_instance pg in
  {| instances := <[k := {| inst_props := pr; inst_state := initial |}]>
                    (instances pg);
     next_instance := S k;
     in_flight := in_flight pg ++ [{| origin := k; sent_for := pr |}] |}.

(** The instance [k] is rendered again with the props [pr]; the effect
    runs again when [id] or [token] differ from the last render. *)
Definition update (k : nat) (pr : props) (pg : page) : page :=
  match instances pg !! k with
  | None => pg
  | Some inst =>
      {| instances := <[k := {| inst_props := pr;
                                inst_state := inst_state inst |}]>
                        (instances pg);
         next_instance := next_instance pg;
         in_flight :=
           if decide (inst_props inst = pr) then in_flight pg
           else in_flight pg ++ [{| origin := k; sent_for := pr |}] |}
  end.

(** The instance [k] is unmounted. *)
Definition unmount (k : nat) (pg : page) : page :=
  {| instances := delete k (instances pg);
     next_instance := next_instance pg;
     in_flight := in_flight pg |}.

(** Drop the first occurrence of a request. *)
Fixpoint settle (rq : request) (l : list request) : list request :=
  match l with
  | [] => []
  | rq' :: l' => if decide (rq = rq') then l' else rq' :: settle rq l'
  end.

(** The response to the request [rq] arrives: the rest of the async
    function runs against the instance that sent the request. *)
Definition respond (rq : request) (res : response) (pg : page) : page :=
  if decide (rq ∈ in_flight pg) then
    {| instances :=
         match instances pg !! origin rq with
         | None => instances pg
         | Some inst =>
             <[origin rq := {| inst_props := inst_props inst;
                               inst_state := receive res (inst_state inst) |}]>
               (instances pg)
         end;
       next_instance := next_instance pg;
       in_flight := settle rq (in_flight pg) |}
  else pg.

(** *** Vocabulary of the properties *)

(** The decimal digit [d], for [d < 10]. *)
Definition digit (d : N) : ascii := ascii_of_N (48 + d).

(** The last two decimal digits of [n], tens first: [n] padded with a
    zero when [n < 10], [n] itself when [n < 100]. *)
Definition two_digits (n : N) : string :=
  String (digit ((n `div` 10) `mod` 10)) (String (digit (n `mod` 10)) "").

(** The response is a failure for the effect: its status is not 200, or
    the payload has an [error] that holds. *)
Definition refused (res : response) : Prop :=
  status res ≠ 200%Z
  ∨ ∃ payload error,
      json res = Ok payload ∧ get payload "error" = Ok error
      ∧ truthy error = true.

(** [seasons[0].episodes[0].versions] of a payload of the seasons shape:
    an object whose [seasons] is an array that starts with an object
    whose [episodes] is an array that starts with an object. *)
Definition first_episode_versions (payload : value) : option value :=
  match payload with
  | VObj fields =>
      match field "seasons" fields with
      | VArr (VObj season :: _) =>
          match field "episodes" season with
          | VArr (VObj episode :: _) => Some (field "versions" episode)
          | _ => None
          end
      | _ => None
      end
  | _ => None
  end.

(** The response is a success: status 200 and a payload whose [error] does
    not hold. *)
Definition accepted (res : response) (payload : value) : Prop :=
  status res = 200%Z ∧ json res = Ok payload
  ∧ ∃ error, get payload "error" = Ok error ∧ truthy error = false.

(** *** The animation end handler (lines 19-22) *)

(** [onAnimationEnd]: called with the [animationName] of the event; what
    it returns here is the [hovering] of the parent, which [setHovering]
    writes. *)
Definition onAnimationEnd (animationName : string) (hovering : bool)
    : bool :=
  if negb (String.eqb animationName "CardPopupHide") then hovering
  else false.

(** The animation events that reach the popup, one after the other. *)
Definition animations (names : list string) (hovering : bool) : bool :=
  foldl (λ h name, onAnimationEnd name h) hovering names.

(** *** The request of the effect (lines 51-57) *)

Record fetch_call := { url : string; authorization : string }.

(** [fetch(`//${window.host}:8000/api/v1/media/${id}/info`, config)] for
    a numeric [id]. *)
Definition media_info (host : string) (id : N) (token : string)
    : fetch_call :=
  {| url := "//" +:+ host +:+ ":8000/api/v1/media/"
            +:+ number_to_string id +:+ "/info";
     authorization := token |}.

(** *** Runs of the placement effect *)

(** The effect runs after the first render and again when [props.popup]
    or the state [overflowing] changed; each run measures the popup. *)
Definition placements (runs : list (rect * Z)) (st : popup_state)
    : popup_state :=
  foldl (λ st m, placement_effect m.1 m.2 st) st runs.

(** *** Histories of a page *)

Inductive page_event : Type :=
| Mount (pr : props)
| Update (k : nat) (pr : props)
| Unmount (k : nat)
| Respond (rq : request) (res : response).

Definition page_step (pg : page) (e : page_event) : page :=
  match e with
  | Mount pr => mount pr pg
  | Update k pr => update k pr pg
  | Unmount k => unmount k pg
  | Respond rq res => respond rq res pg
  end.

Definition page_run (evs : list page_event) : page :=
  foldl page_step empty_page evs.

(** *** More vocabulary of the properties *)

(** The number a decimal digit stands for. *)
Definition digit_value (c : ascii) : N := N_of_ascii c - 48.

(** Read two digits off the front of a string. *)
Definition read_two (s : string) : option (N * string) :=
  match s with
  | String a (String b rest) =>
      Some (10 * digit_value a + digit_value b, rest)%N
  | _ => None
  end.

(** Read [hh:mm:ss] back into seconds. *)
Definition read_length (s : string) : option N :=
  match read_two s with
  | Some (h, String ":" s1) =>
      match read_two s1 with
      | Some (m, String ":" s2) =>
          match read_two s2 with
          | Some (sec, "") => Some (h * 3600 + m * 60 + sec)%N
          | _ => None
          end
      | _ => None
      end
  | _ => None
  end.

(** Keys and origins are below the next key to be given out. *)
Definition keys_below (pg : page) : Prop :=
  (∀ k inst, instances pg !! k = Some inst → k < next_instance pg)
  ∧ (∀ rq, rq ∈ in_flight pg → origin rq < next_instance pg).

(** [seasons[0].episodes[0].versions], read step by step: each step
    throws on [undefined] and on [null]. *)
Definition first_episode (seasons : value) : result value :=
  season ← index seasons 0;
  episodes ← get season "episodes";
  episode ← index episodes 0;
  get episode "versions".

(** The popup with key 0 is rendered again and again, with these props
    in turn. *)
Definition rerender (ps : list props) (pg : page) : page :=
  foldl (λ pg pr, update 0 pr pg) pg ps.

(** The props in a run of renders that differ from the props of the
    render before, [prev] being the props before the first. *)
Fixpoint changes (prev : props) (ps : list props) : list props :=
  match ps with
  | [] => []
  | pr :: ps' =>
      if decide (prev = pr) then changes pr ps' else pr :: changes pr ps'
  end.

End CardPopup.

(** ** actions/types.js *)

Module ActionTypes.

Definition FETCH_USER_START : string := "FETCH_USER_START".
Definition FETCH_USER_OK : string := "FETCH_USER_OK".
Definition FETCH_USER_ERR : string := "FETCH_USER_ERR".

Definition FETCH_LIBRARIES_START : string := "FETCH_LIBRARIES_START".
Definition FETCH_LIBRARIES_OK : string := "FETCH_LIBRARIES_OK".
Definition FETCH_LIBRARIES_ERR : string := "FETCH_LIBRARIES_ERR".

Definition FETCH_LIBRARY_INFO : string := "FETCH_LIBRARY_INFO".
Definition FETCH_LIBRARY_MEDIA : string := "FETCH_LIBRARY_MEDIA".
Definition NEW_LIBRARY : string := "NEW_LIBRARY".
Definition DEL_LIBRARY : string := "DEL_LIBRARY".

Definition FETCH_HOSTS_START : string := "FETCH_HOSTS_START".
Definition FETCH_HOSTS_OK : string := "FETCH_HOSTS_OK".
Definition FETCH_HOSTS_ERR : string := "FETCH_HOSTS_ERR".

Definition FETCH_DASHBOARD_START : string := "FETCH_DASHBOARD_START".
Definition FETCH_DASHBOARD_OK : string := "FETCH_DASHBOARD_OK".
Definition FETCH_DASHBOARD_ERR : string := "FETCH_DASHBOARD_ERR".

Definition FETCH_BANNERS_START : string := "FETCH_BANNERS_START".
Definition FETCH_BANNERS_OK : string := "FETCH_BANNERS_OK".
Definition FETCH_BANNERS_ERR : string := "FETCH_BANNERS_ERR".

(** Everything the module exports, in its order. *)
Definition exported : list string :=
  [FETCH_USER_START; FETCH_USER_OK; FETCH_USER_ERR;
   FETCH_LIBRARIES_START; FETCH_LIBRARIES_OK; FETCH_LIBRARIES_ERR;
   FETCH_LIBRARY_INFO; FETCH_LIBRARY_MEDIA; NEW_LIBRARY; DEL_LIBRARY;
   FETCH_HOSTS_START; FETCH_HOSTS_OK; FETCH_HOSTS_ERR;
   FETCH_DASHBOARD_START; FETCH_DASHBOARD_OK; FETCH_DASHBOARD_ERR;
   FETCH_BANNERS_START; FETCH_BANNERS_OK; FETCH_BANNERS_ERR].

End ActionTypes.

(** ** Card.jsx *)

Module Card.

(** *** The component state *)

(** [state.hoverTimeout]: the constructor leaves it out, so it starts as
    [undefined]; the handler stores [null] or what [setTimeout] returned. *)
Inductive handle : Type :=
| HUndefined
| HNull
| HTimer (id : nat).

Record accent_theme := { background : string; text : string }.

Global Instance accent_theme_eq_dec : EqDecision accent_theme.
Proof. solve_decision. Defined.

Record card_state := {
  hovering : bool;
  timeout : bool;
  hoverTimeout : handle;
  posterBlob : option string;
  accentDone : bool;
  accent : accent_theme
}.

(** [this.state] as the constructor leaves it (lines 65-74). *)
Definition constructed : card_state :=
  {| hovering := false;
     timeout := false;
     hoverTimeout := HUndefined;
     posterBlob := None;
     accentDone := false;
     accent := {| background := "#f7931e"; text := "#ffffff" |} |}.

(** *** The card in its browser *)

(** What the card does to the world around it. *)
Inductive effect : Type :=
| Activated                      (* the timer called [renderCardPopout] *)
| PaletteRequested (blob : string) (* [Vibrant.from(blob).getPalette()] *)
| AccentSet (a : accent_theme)   (* [setState({ accent })] *)
| PopupMounted                   (* [render] begins to return a CardPopup,
                                    whose effects then run (its fetch) *)
| PopupUnmounted.                (* [render] stops returning it *)

Global Instance effect_eq_dec : EqDecision effect.
Proof. solve_decision. Defined.

(** The card, the timers of the window that have not fired yet (with the
    milliseconds each has left), the next timer id, the number
    of calls of [renderCardPopout] suspended at their [await], and what
    has happened so far, oldest first. *)
Record world := {
  card : card_state;
  timers : list (nat * nat);
  next_timer : nat;
  awaiting : nat;
  log : list effect
}.

Definition boot : world :=
  {| card := constructed; timers := []; next_timer := 1; awaiting := 0;
     log := [] |}.

Definition with_card (c : card_state) (w : world) : world :=
  {| card := c; timers := timers w; next_timer := next_timer w;
     awaiting := awaiting w; log := log w |}.

Definition with_awaiting (n : nat) (w : world) : world :=
  {| card := card w; timers := timers w; next_timer := next_timer w;
     awaiting := n; log := log w |}.

Definition emit (e : effect) (w : world) : world :=
  {| card := card w; timers := timers w; next_timer := next_timer w;
     awaiting := awaiting w; log := log w ++ [e] |}.

(** [setTimeout(f, ms)]: a fresh id, and one more pending timer. *)
Definition setTimeout (ms : nat) (w : world) : nat * world :=
  (next_timer w,
   {| card := card w; timers := timers w ++ [(next_timer w, ms)];
      next_timer := S (next_timer w); awaiting := awaiting w;
      log := log w |}).

(** [clearTimeout(id)]: nothing happens for an id that is not pending. *)
Definition clearTimeout (id : nat) (w : world) : world :=
  {| card := card w;
     timers := List.filter (λ t, negb (t.1 =? id)) (timers w);
     next_timer := next_timer w; awaiting := awaiting w; log := log w |}.

(** [setState] with the keys the code passes.  After a state change
    React calls [render], which returns a CardPopup exactly when
    [state.hovering] holds (line 135). *)
Definition set_hoverTimeout (h : handle) (w : world) : world :=
  let c := card w in
  with_card {| hovering := hovering c; timeout := timeout c;
               hoverTimeout := h; posterBlob := posterBlob c;
               accentDone := accentDone c; accent := accent c |} w.

Definition set_posterBlob (url : string) (w : world) : world :=
  let c := card w in
  with_card {| hovering := hovering c; timeout := timeout c;
               hoverTimeout := hoverTimeout c; posterBlob := Some url;
               accentDone := accentDone c; accent := accent c |} w.

Definition set_accent (a : accent_theme) (w : world) : world :=
  let c := card w in
  emit (AccentSet a)
    (with_card {| hovering := hovering c; timeout := timeout c;
                  hoverTimeout := hoverTimeout c; posterBlob := posterBlob c;
                  accentDone := accentDone c; accent := a |} w).

Definition set_hovering (b : bool) (w : world) : world :=
  let c := card w in
  let w' :=
    with_card {| hovering := b; timeout := timeout c;
                 hoverTimeout := hoverTimeout c; posterBlob := posterBlob c;
                 accentDone := accentDone c; accent := accent c |} w in
  match hovering c, b with
  | false, true => emit PopupMounted w'
  | true, false => emit PopupUnmounted w'
  | _, _ => w'
  end.

(** *** The methods *)

(** [handleMouseHover] (lines 77-92), bound to both [onMouseEnter] and
    [onMouseLeave].  [x != null] fails for [undefined] and for [null]. *)
Definition handleMouseHover (w : world) : world :=
  match hoverTimeout (card w) with
  | HTimer id =>
      set_hovering false (set_hoverTimeout HNull (clearTimeout id w))
  | HUndefined | HNull =>
      let '(id, w') := setTimeout 600 w in
      set_hoverTimeout (HTimer id) w'
  end.

(** The last statement of [renderCardPopout] (lines 106-108). *)
Definition toggle_hovering (w : world) : world :=
  set_hovering (negb (hovering (card w))) w.

(** [renderCardPopout] (lines 94-109) up to its [await], or to its end
    when the condition of line 95 fails. *)
Definition renderCardPopout (w : world) : world :=
  let w := emit Activated w in
  match accentDone (card w), posterBlob (card w) with
  | false, Some blob =>
      with_awaiting (S (awaiting w)) (emit (PaletteRequested blob) w)
  | _, _ => toggle_hovering w
  end.

(** What node-vibrant hands back: a palette whose [Vibrant] swatch may be
    [null], or a rejected promise. *)
Record swatch := { getHex : string; getTitleTextColor : string }.

Inductive settlement : Type :=
| Resolved (Vibrant : option swatch)
| Rejected.

(** [renderCardPopout] from its [await] on.  A rejection, or the
    TypeError of [color.Vibrant.getHex()] on a missing swatch, ends the
    call there. *)
Definition resume (r : settlement) (w : world) : world :=
  match awaiting w with
  | 0 => w
  | S n =>
      let w := with_awaiting n w in
      match r with
      | Resolved (Some color) =>
          toggle_hovering
            (set_accent {| background := getHex color;
                           text := getTitleTextColor color |} w)
      | Resolved None | Rejected => w
      end
  end.

(** [onLoadPoster] (lines 111-115); [url] is what [URL.createObjectURL]
    returned. *)
Definition onLoadPoster (url : string) (w : world) : world :=
  set_posterBlob url w.

(** *** Time and events *)

(** What reaches the card from outside: the pointer entering or leaving
    it, the poster having loaded, a palette promise settling. *)
Inductive event : Type :=
| PointerToggle
| PosterLoaded (url : string)
| PaletteSettled (r : settlement).

Definition dispatch (e : event) (w : world) : world :=
  match e with
  | PointerToggle => handleMouseHover w
  | PosterLoaded url => onLoadPoster url w
  | PaletteSettled r => resume r w
  end.

Definition due (ms : nat) (t : nat * nat) : bool := t.2 <=? ms.

(** [ms] milliseconds go by: the timers that reach their delay fire, each
    calling [renderCardPopout]; the others have that much less to go.  A
    timer whose delay ends at the very instant of the next event fires
    first. *)
Definition elapse (ms : nat) (w : world) : world :=
  let fired := List.filter (due ms) (timers w) in
  let left := (λ t, (t.1, t.2 - ms)) <$>
                List.filter (λ t, negb (due ms t)) (timers w) in
  Nat.iter (length fired) renderCardPopout
    {| card := card w; timers := left; next_timer := next_timer w;
       awaiting := awaiting w; log := log w |}.

(** A history: events, each with the time since the one before. *)
Fixpoint run (evs : list (nat * event)) (w : world) : world :=
  match evs with
  | [] => w
  | (ms, e) :: evs' => run evs' (dispatch e (elapse ms w))
  end.

(** The card after the history [evs] and [tail] more milliseconds. *)
Definition observe (evs : list (nat * event)) (tail : nat) : world :=
  elapse tail (run evs boot).

(** *** Hover intent *)

(** The delay of the hover timer. *)
Definition D : nat := 600.

(** A history in which no enter lasts: the pointer starts outside the
    card, so the toggles are, in turn, an enter and a leave; [held] is
    the time since an enter that no leave has followed yet.  Every enter
    is followed by a leave less than [D] later, or the observation stops
    less than [D] after it. *)
Fixpoint brief (held : option nat) (evs : list (nat * event)) (tail : nat)
    : bool :=
  match evs with
  | [] =>
      match held with
      | Some e => e + tail <? D
      | None => true
      end
  | (ms, PointerToggle) :: evs' =>
      match held with
      | Some e => (e + ms <? D) && brief None evs' tail
      | None => brief (Some 0) evs' tail
      end
  | (ms, _) :: evs' => brief ((λ e, e + ms) <$> held) evs' tail
  end.

(** *** Vocabulary of the properties *)

(** [h != null] fails. *)
Definition nullish (h : handle) : Prop :=
  match h with
  | HTimer _ => False
  | HUndefined | HNull => True
  end.

(** No timer is pending, the handle is empty and no popup is shown. *)
Definition idle (w : world) : Prop :=
  timers w = [] ∧ nullish (hoverTimeout (card w))
  ∧ hovering (card w) = false.

(** The hover timer was set [e] milliseconds ago, is the only timer
    pending, and no popup is shown. *)
Definition pending (e : nat) (w : world) : Prop :=
  e < D ∧ hovering (card w) = false
  ∧ ∃ id, timers w = [(id, D - e)] ∧ hoverTimeout (card w) = HTimer id.

(** Nothing has happened and no call is suspended. *)
Definition quiet (w : world) : Prop := awaiting w = 0 ∧ log w = [].

(** The world of a card along a history in which no enter has lasted. *)
Definition tracks (held : option nat) (w : world) : Prop :=
  quiet w
  ∧ match held with
    | Some e => pending e w
    | None => idle w
    end.

(** An extraction has run to its end at least once. *)
Definition extracted (w : world) : Prop := ∃ a, AccentSet a ∈ log w.

(** What holds of the accent at any time: the guard is down, and the
    accent is the one of the constructor unless an extraction has run to
    its end. *)
Definition sound (w : world) : Prop :=
  accentDone (card w) = false
  ∧ (extracted w ∨ accent (card w) = accent constructed).

(** What [renderCardPopout] does right after [Activated]: it asks for
    the palette of the poster, or it flips the popup. *)
Definition first_reaction (c : card_state) : effect :=
  match accentDone c, posterBlob c with
  | false, Some blob => PaletteRequested blob
  | _, _ => if hovering c then PopupUnmounted else PopupMounted
  end.

(** *** [render] (lines 117-138) *)

(** What [render] reads of [this.props.data]. *)
Record card_data := { name : string; poster_path : value }.

Inductive cover_view : Type :=
| LazyImage (alt : string) (src : value)
| placeholder.

(** What [render] returns: the cover, the opacity of the title, and the
    props of the CardPopup when there is one. *)
Record card_view := {
  cover : cover_view;
  title : string;
  title_opacity : Z;
  popup : option (card_data * accent_theme)
}.

(** [poster_path ? <LazyImage .../> : <div className="placeholder"/>],
    [opacity: + !this.state.hovering] and
    [this.state.hovering && <CardPopup data=... accent=.../>]. *)
Definition render (data : card_data) (c : card_state) : card_view :=
  {| cover := if truthy (poster_path data)
              then LazyImage ("cover-" +:+ name data) (poster_path data)
              else placeholder;
     title := name data;
     title_opacity := if negb (hovering c) then 1 else 0;
     popup := if hovering c then Some (data, accent c) else None |}.

(** *** More vocabulary of the properties *)

(** How often an effect of some kind is in a log. *)
Definition count (kind : effect → bool) (l : list effect) : nat :=
  length (List.filter kind l).

Definition is_activation (e : effect) : bool :=
  match e with Activated => true | _ => false end.

Definition is_request (e : effect) : bool :=
  match e with PaletteRequested _ => true | _ => false end.

Definition is_accent (e : effect) : bool :=
  match e with AccentSet _ => true | _ => false end.

Definition is_mount (e : effect) : bool :=
  match e with PopupMounted => true | _ => false end.

Definition is_unmount (e : effect) : bool :=
  match e with PopupUnmounted => true | _ => false end.

(** The url of the last poster load in a history, [u] when there is
    none. *)
Fixpoint last_poster (u : option string) (evs : list (nat * event))
    : option string :=
  match evs with
  | [] => u
  | (_, PosterLoaded url) :: evs' => last_poster (Some url) evs'
  | _ :: evs' => last_poster u evs'
  end.

(** At most one timer is pending; a pending timer is the one the handle
    names, was given out before the next id, and has between 1 and [D]
    milliseconds to go. *)
Definition one_timer (w : world) : Prop :=
  timers w = []
  ∨ ∃ id left,
      timers w = [(id, left)] ∧ hoverTimeout (card w) = HTimer id
      ∧ id < next_timer w ∧ 0 < left ≤ D.

(** The popup is mounted once more than it was unmounted exactly while
    the card hovers. *)
Definition balanced (w : world) : Prop :=
  count is_mount (log w)
  = count is_unmount (log w) + (if hovering (card w) then 1 else 0).

(** Every palette request goes back to a timer that fired, and every
    accent that was set and every popup that was mounted to a call that
    is no longer suspended. *)
Definition caused (w : world) : Prop :=
  count is_accent (log w) + awaiting w ≤ count is_request (log w)
  ∧ count is_request (log w) ≤ count is_activation (log w)
  ∧ count is_mount (log w) + awaiting w ≤ count is_activation (log w).

(** The accent [renderCardPopout] makes of a swatch (lines 99-102). *)
Definition colours (c : swatch) : accent_theme :=
  {| background := getHex c; text := getTitleTextColor c |}.

(** A palette with a Vibrant swatch arrives. *)
Definition is_swatch (e : event) : bool :=
  match e with
  | PaletteSettled (Resolved (Some _)) => true
  | _ => false
  end.

(** A history in which no palette with a Vibrant swatch arrives. *)
Definition no_swatch (evs : list (nat * event)) : bool :=
  forallb (λ te, negb (is_swatch te.2)) evs.

(** The accents of the swatches that arrive in a history, in order. *)
Fixpoint delivered (evs : list (nat * event)) : list accent_theme :=
  match evs with
  | [] => []
  | (_, PaletteSettled (Resolved (Some c))) :: evs' =>
      colours c :: delivered evs'
  | _ :: evs' => delivered evs'
  end.

End Card.

(** * Properties *)

Module CardPopupSpec.

Import CardPopup.

(** ** Placement *)

Lemma overflowing_spec (r : rect) (V : Z) :
  overflowing r V = true ↔ (x r + width r > V - 5)%Z.
Proof. unfold overflowing. rewrite Z.gtb_gt. reflexivity. Qed.

(** C6.  On a popup that has just been mounted the placement effect
    leaves the class of the left side exactly when
    [x + width > innerWidth - 5], and that of the right side otherwise;
    a popup at x = 1000 of width 300 in a window 1200 wide opens to the
    left, one at x = 100 to the right. *)
Theorem placement_side (r : rect) (V : Z) :
  (direction (placement_effect r V initial) = "card-popup-left"
     ↔ (x r + width r > V - 5)%Z)
  ∧ (direction (placement_effect r V initial) = "card-popup-right"
     ↔ ¬ (x r + width r > V - 5)%Z)
  ∧ direction (placement_effect {| x := 1000; width := 300 |} 1200 initial)
    = "card-popup-left"
  ∧ direction (placement_effect {| x := 100; width := 300 |} 1200 initial)
    = "card-popup-right".
Proof.
  rewrite <- overflowing_spec. unfold placement_effect.
  destruct (overflowing r V); simpl; repeat split; try done.
Qed.

(** ** Length *)

Lemma digit_pretty (d : N) : (d < 10)%N → pretty_N_char d = digit d.
Proof.
  intros H.
  assert (d ∈ [0; 1; 2; 3; 4; 5; 6; 7; 8; 9]%N) as Hd.
  { rewrite !elem_of_cons. lia. }
  rewrite !elem_of_cons, elem_of_nil in Hd.
  destruct Hd as [->|[->|[->|[->|[->|[->|[->|[->|[->|[->|[]]]]]]]]]]];
    reflexivity.
Qed.

Lemma string_length_app (s1 s2 : string) :
  String.length (s1 +:+ s2) = String.length s1 + String.length s2.
Proof. induction s1 as [|c s1 IH]; simpl; [done | by rewrite IH]. Qed.

Lemma string_app_cons (c : ascii) (s1 s2 : string) :
  String c s1 +:+ s2 = String c (s1 +:+ s2).
Proof. reflexivity. Qed.

Lemma string_app_assoc (s1 s2 s3 : string) :
  s1 +:+ (s2 +:+ s3) = (s1 +:+ s2) +:+ s3.
Proof.
  induction s1 as [|c s1 IH]; [done |].
  rewrite !string_app_cons. by rewrite IH.
Qed.

Lemma substring_skip (p s : string) (n : nat) :
  String.substring (String.length p) n (p +:+ s) = String.substring 0 n s.
Proof. induction p as [|c p IH]; simpl; [done | exact IH]. Qed.

Lemma slice_last_two (p : string) (a b : ascii) :
  slice (-2) (p +:+ String a (String b "")) = String a (String b "").
Proof.
  unfold slice. rewrite string_length_app. cbn [String.length].
  set (k := String.length p).
  change (-2 <? 0)%Z with true. cbv iota.
  replace (Z.max (Z.of_nat (k + 2) + -2) 0) with (Z.of_nat k) by lia.
  rewrite Nat2Z.id.
  replace (Z.to_nat (Z.of_nat (k + 2) - Z.of_nat k)) with 2 by lia.
  subst k. rewrite substring_skip. reflexivity.
Qed.

Lemma pretty_go_suffix (n : N) (s : string) :
  ∃ p, pretty_N_go n s = p +:+ s.
Proof.
  revert s. induction (N.lt_wf_0 n) as [n _ IH]. intros s.
  destruct (decide (0 < n)%N) as [Hn|Hn].
  - rewrite pretty_N_go_step by done.
    destruct (IH (n `div` 10)%N)
      with (s := String (pretty_N_char (n `mod` 10)) s) as [p Hp].
    { apply N.div_lt; lia. }
    exists (p +:+ String (pretty_N_char (n `mod` 10)) "").
    rewrite Hp. apply (string_app_assoc p (String _ "") s).
  - assert (n = 0%N) as -> by lia. exists "". apply pretty_N_go_0.
Qed.

Lemma pad2_two_digits (n : N) : pad2 n = two_digits n.
Proof.
  unfold pad2, number_to_string, two_digits, pretty, pretty_N.
  destruct (decide (n = 0%N)) as [->|Hn]; [reflexivity |].
  rewrite pretty_N_go_step by lia.
  rewrite (digit_pretty (n `mod` 10)) by (apply N.mod_lt; lia).
  destruct (decide (0 < n `div` 10)%N) as [Ht|Ht].
  - rewrite pretty_N_go_step by done.
    rewrite (digit_pretty ((n `div` 10) `mod` 10)) by (apply N.mod_lt; lia).
    destruct (pretty_go_suffix ((n `div` 10) `div` 10)
      (String (digit ((n `div` 10) `mod` 10)) (String (digit (n `mod` 10)) "")))
      as [p ->].
    apply (slice_last_two (String "0" p)).
  - apply N.nlt_ge, N.le_0_r in Ht. rewrite Ht.
    rewrite pretty_N_go_0. reflexivity.
Qed.

(** C7.  The length shown for a duration of [d] seconds is
    [hh:mm:ss], each part the two decimal digits of [d / 3600],
    [(d % 3600) / 60] and [(d % 3600) % 60]; 3661, 59 and 0 seconds show
    as 01:01:01, 00:00:59 and 00:00:00. *)
Theorem length_format (d : N) :
  render_length d
  = two_digits (d `div` 3600) +:+ ":"
    +:+ two_digits ((d `mod` 3600) `div` 60) +:+ ":"
    +:+ two_digits ((d `mod` 3600) `mod` 60)
  ∧ render_length 3661 = "01:01:01"
  ∧ render_length 59 = "00:00:59"
  ∧ render_length 0 = "00:00:00".
Proof.
  split; [| repeat split; vm_compute; reflexivity].
  unfold render_length, length_of. simpl. by rewrite !pad2_two_digits.
Qed.

(** ** Description *)

(** C10.  A description that is [null] or the empty string shows the
    fixed paragraph; one that is [undefined] makes the render throw. *)
Theorem description_fallback :
  render_description DNull = Ok (Paragraph "No description found.")
  ∧ render_description (DString "") = Ok (Paragraph "No description found.")
  ∧ render_description DUndefined = Throw.
Proof. repeat split. Qed.

(** ** Genres *)

Section GenresFacts.

Variable encodeURIComponent : string → string.

Lemma truncate_genres_eq (g : ref) (σ : store) (items : list string) :
  σ !! g = Some items →
  truncate_genres g σ = Ok (<[g := take 3 items]> σ).
Proof.
  intros H. unfold truncate_genres. rewrite H.
  destruct (3 <? length items) eqn:E; [done |].
  apply Nat.ltb_ge in E. rewrite take_ge by done.
  by rewrite insert_id.
Qed.

Lemma render_genres_eq (g : ref) (σ : store) (items : list string) :
  σ !! g = Some items →
  render_genres encodeURIComponent g σ
  = Ok (genre_links encodeURIComponent (take 3 items),
        <[g := take 3 items]> σ).
Proof.
  intros H. unfold render_genres. rewrite (truncate_genres_eq g σ items H).
  simpl. by rewrite lookup_insert_eq.
Qed.

Lemma genre_links_labels (items : list string) :
  label <$> genre_links encodeURIComponent items = items.
Proof.
  unfold genre_links.
  induction items as [|i items IH]; [done |].
  rewrite !fmap_cons. simpl. by rewrite IH.
Qed.

(** C5, as the code has it.  Rendering shows the first [min N 3] genres
    in their order, and it does so by cutting the array of the caller
    down to them: after the render the array the summary refers to holds
    those genres and no others (for more than three genres it is no
    longer the list it was); arrays under other references are left
    alone. *)
Theorem genres_truncated_in_place (g : ref) (σ : store)
    (items : list string) :
  σ !! g = Some items →
  ∃ links σ',
    render_genres encodeURIComponent g σ = Ok (links, σ')
    ∧ label <$> links = take 3 items
    ∧ length links = length items `min` 3
    ∧ σ' !! g = Some (take 3 items)
    ∧ (3 < length items → σ' !! g ≠ σ !! g)
    ∧ (∀ g', g' ≠ g → σ' !! g' = σ !! g').
Proof.
  intros H. eexists _, _. split; [by apply render_genres_eq |].
  rewrite genre_links_labels, lookup_insert_eq.
  repeat split.
  - unfold genre_links. rewrite length_fmap, length_take. lia.
  - intros Hlen E. rewrite H in E. injection E as E.
    apply (f_equal length) in E. rewrite length_take in E. lia.
  - intros g' Hg. by rewrite lookup_insert_ne.
Qed.

End GenresFacts.

Lemma genres_truncated_in_place_witness :
  let σ : store := {[ 1%positive := ["Action"; "Crime"] ]} in
  σ !! 1%positive = Some ["Action"; "Crime"]
  ∧ ∃ links σ',
      render_genres id 1%positive σ = Ok (links, σ')
      ∧ label <$> links = ["Action"; "Crime"].
Proof.
  intros σ.
  assert (σ !! 1%positive = Some ["Action"; "Crime"]) as H by reflexivity.
  split; [exact H |].
  destruct (genres_truncated_in_place id 1%positive σ _ H)
    as (links & σ' & E & L & _).
  exists links, σ'. split; [exact E | exact L].
Defined.

(** The caller's array of four genres holds three after one render. *)
Lemma render_mutates_caller_genres :
  let σ : store :=
    {[ 1%positive := ["Action"; "Crime"; "Drama"; "Thriller"] ]} in
  ∃ links σ',
    render_genres id 1%positive σ = Ok (links, σ')
    ∧ length links = 3
    ∧ σ' !! 1%positive = Some ["Action"; "Crime"; "Drama"]
    ∧ σ' !! 1%positive ≠ σ !! 1%positive.
Proof.
  intros σ. eexists _, _.
  split; [apply (render_genres_eq id 1%positive σ); reflexivity |].
  rewrite lookup_insert_eq. repeat split. discriminate.
Qed.

(** ** Media versions *)

Lemma refused_versions_of (res : response) :
  refused res → versions_of res = Ok None.
Proof.
  intros H. unfold versions_of.
  destruct H as [H | (payload & error & Hj & He & Ht)].
  - apply Z.eqb_neq in H. rewrite H. reflexivity.
  - destruct (status res =? 200)%Z; [simpl | reflexivity].
    rewrite Hj. simpl. rewrite He. simpl. rewrite Ht. reflexivity.
Qed.

(** C3.  A response with a status other than 200, or whose payload has
    its [error] set, leaves the popup state, and so its list of media
    versions, as it was. *)
Theorem fetch_error_no_update (res : response) (st : popup_state) :
  refused res →
  receive res st = st ∧ mediaVersions (receive res st) = mediaVersions st.
Proof.
  intros H. unfold receive. rewrite (refused_versions_of res H).
  split; reflexivity.
Qed.

Lemma fetch_error_no_update_witness :
  let res := {| status := 200;
                json := Ok (VObj [("error", VStr "no such media")]) |} in
  refused res
  ∧ mediaVersions (receive res initial) = VArr [].
Proof.
  intros res.
  assert (refused res) as H.
  { right. exists (VObj [("error", VStr "no such media")]).
    exists (VStr "no such media"). repeat split. }
  split; [exact H |]. apply (fetch_error_no_update res initial H).
Defined.

Lemma accepted_versions_of (res : response) (payload : value) :
  accepted res payload →
  versions_of res
  = (seasons ← get payload "seasons";
     if truthy seasons then
       season ← index seasons 0;
       episodes ← get season "episodes";
       episode ← index episodes 0;
       versions ← get episode "versions";
       Ok (Some versions)
     else versions ← get payload "versions"; Ok (Some versions)).
Proof.
  intros (Hs & Hj & error & He & Ht). unfold versions_of.
  rewrite Hs, Hj. simpl. rewrite He. simpl. by rewrite Ht.
Qed.

Lemma first_episode_versions_read (payload : value) (v : value) :
  first_episode_versions payload = Some v →
  ∃ seasons,
    get payload "seasons" = Ok seasons ∧ truthy seasons = true
    ∧ first_episode seasons = Ok v.
Proof.
  intros Hv.
  destruct payload as [| | | | | |fields]; try discriminate Hv.
  simpl in Hv. exists (field "seasons" fields). split; [done |].
  destruct (field "seasons" fields) as [| | | | |[|[| | | | | |season] ?]|];
    try discriminate Hv.
  split; [done |]. unfold first_episode. simpl.
  destruct (field "episodes" season)
    as [| | | | |[|[| | | | | |episode] ?]|]; try discriminate Hv.
  simpl. congruence.
Qed.

(** C4, as the code has it.  After a success with a payload of the
    seasons shape the list of media versions is
    [seasons[0].episodes[0].versions], and after a success with a falsy
    [seasons] it is [payload.versions]; the new list is that value
    whatever the list was before.  After a success whose [seasons] is
    truthy the list is [seasons[0].episodes[0].versions] whenever that
    can be read; when it cannot, the read throws and the list stays what
    it was, whether or not the payload has [versions]. *)
Theorem fetch_normalizes (res : response) (payload : value)
    (st : popup_state) :
  accepted res payload →
  (∀ v, first_episode_versions payload = Some v →
        receive res st = setMediaVersions v st
        ∧ mediaVersions (receive res st) = v)
  ∧ (∀ seasons v,
        get payload "seasons" = Ok seasons → truthy seasons = false →
        get payload "versions" = Ok v →
        receive res st = setMediaVersions v st
        ∧ mediaVersions (receive res st) = v)
  ∧ (∀ seasons,
        get payload "seasons" = Ok seasons → truthy seasons = true →
        match first_episode seasons with
        | Ok v =>
            receive res st = setMediaVersions v st
            ∧ mediaVersions (receive res st) = v
        | Throw => versions_of res = Throw ∧ receive res st = st
        end).
Proof.
  intros Ha. pose proof (accepted_versions_of res payload Ha) as K.
  assert (∀ seasons, get payload "seasons" = Ok seasons →
          truthy seasons = true →
          versions_of res = (v ← first_episode seasons; Ok (Some v))) as T.
  { intros seasons Hse Ht. rewrite K, Hse. simpl. rewrite Ht.
    unfold first_episode.
    destruct (index seasons 0) as [season|]; [simpl | done].
    destruct (get season "episodes") as [episodes|]; [simpl | done].
    by destruct (index episodes 0) as [episode|]. }
  split; [| split].
  - intros v Hv.
    destruct (first_episode_versions_read payload v Hv)
      as (seasons & Hse & Ht & Hf).
    unfold receive. rewrite (T seasons Hse Ht), Hf. done.
  - intros seasons v Hse Hf Hv. unfold receive.
    rewrite K, Hse. simpl. rewrite Hf, Hv. done.
  - intros seasons Hse Ht. unfold receive. rewrite (T seasons Hse Ht).
    by destruct (first_episode seasons).
Qed.

Lemma fetch_normalizes_witness :
  let show := VObj [("seasons",
    VArr [VObj [("episodes",
      VArr [VObj [("versions", VArr [VNum 7; VNum 8])]])]])] in
  let film := VObj [("versions", VArr [VNum 3])] in
  let torn := VObj [("seasons", VArr [VNull]);
                    ("versions", VArr [VNum 5])] in
  let old := setMediaVersions (VArr [VNum 1]) initial in
  accepted {| status := 200; json := Ok show |} show
  ∧ mediaVersions (receive {| status := 200; json := Ok show |} old)
    = VArr [VNum 7; VNum 8]
  ∧ accepted {| status := 200; json := Ok film |} film
  ∧ mediaVersions (receive {| status := 200; json := Ok film |} old)
    = VArr [VNum 3]
  ∧ accepted {| status := 200; json := Ok torn |} torn
  ∧ receive {| status := 200; json := Ok torn |} old = old.
Proof.
  intros show film torn old.
  assert (accepted {| status := 200; json := Ok show |} show) as Hs.
  { repeat split. exists VUndefined. split; reflexivity. }
  assert (accepted {| status := 200; json := Ok film |} film) as Hf.
  { repeat split. exists VUndefined. split; reflexivity. }
  assert (accepted {| status := 200; json := Ok torn |} torn) as Ht.
  { repeat split. exists VUndefined. split; reflexivity. }
  split; [exact Hs |]. split; [| split; [exact Hf |]; split;
    [| split; [exact Ht |]]].
  - apply (proj1 (fetch_normalizes _ show old Hs) (VArr [VNum 7; VNum 8])).
    reflexivity.
  - apply (proj1 (proj2 (fetch_normalizes _ film old Hf))
             VUndefined (VArr [VNum 3])); reflexivity.
  - apply (proj2 (proj2 (fetch_normalizes _ torn old Ht))
             (VArr [VNull]) eq_refl eq_refl).
Defined.

(** A success with an empty [seasons] array and a list of versions
    beside it: the list shown is neither that of a first episode, there
    is none, nor [payload.versions]; it is the list from before. *)
Lemma empty_seasons_keeps_list :
  let payload := VObj [("seasons", VArr []);
                       ("versions", VArr [VNum 9])] in
  let res := {| status := 200; json := Ok payload |} in
  let old := setMediaVersions (VArr [VNum 1]) initial in
  accepted res payload
  ∧ get payload "versions" = Ok (VArr [VNum 9])
  ∧ versions_of res = Throw
  ∧ mediaVersions (receive res old) = VArr [VNum 1]
  ∧ mediaVersions (receive res old) ≠ VArr [VNum 9].
Proof.
  intros payload res old. split.
  { repeat split. exists VUndefined. split; reflexivity. }
  repeat split. discriminate.
Qed.

(** ** Responses that arrive late *)

Lemma respond_instances (rq : request) (res : response) (pg : page) :
  rq ∈ in_flight pg →
  instances (respond rq res pg)
  = match instances pg !! origin rq with
    | None => instances pg
    | Some inst =>
        <[origin rq := {| inst_props := inst_props inst;
                          inst_state := receive res (inst_state inst) |}]>
          (instances pg)
    end.
Proof. intros H. unfold respond. by rewrite decide_True. Qed.

(** C2, as the code has it.  A response that arrives after the popup
    that asked for it was unmounted changes the state of no popup.  A
    response to a request for item A that arrives while the same popup
    shows item B is dealt with like any other: a success puts the
    versions of A into the list of the popup that shows B, and a failure
    leaves that list alone. *)
Theorem late_response (rq : request) (res : response) (pg : page) :
  rq ∈ in_flight pg →
  (instances pg !! origin rq = None →
     instances (respond rq res pg) = instances pg)
  ∧ (∀ inst,
       instances pg !! origin rq = Some inst →
       item_id (inst_props inst) ≠ item_id (sent_for rq) →
       instances (respond rq res pg) !! origin rq
       = Some {| inst_props := inst_props inst;
                 inst_state := receive res (inst_state inst) |}
       ∧ (∀ v, versions_of res = Ok (Some v) →
            mediaVersions (receive res (inst_state inst)) = v)
       ∧ (refused res → instances (respond rq res pg) = instances pg)
       ∧ (∀ k, k ≠ origin rq →
            instances (respond rq res pg) !! k = instances pg !! k)).
Proof.
  intros Hin. rewrite (respond_instances rq res pg Hin). split.
  - intros ->. reflexivity.
  - intros inst Hi _. rewrite Hi, lookup_insert_eq. repeat split.
    + intros v Hv. unfold receive. by rewrite Hv.
    + intros Hr. unfold receive. rewrite (refused_versions_of res Hr).
      apply insert_id. rewrite Hi. by destruct inst.
    + intros k Hk. by rewrite lookup_insert_ne.
Qed.

(** A popup mounted for item 1 and rendered again for item 2, with the
    request for item 1 still in flight. *)
Lemma late_response_witness :
  let A := {| item_id := 1; token := "t" |} in
  let B := {| item_id := 2; token := "t" |} in
  let pg := update 0 B (mount A empty_page) in
  let rq := {| origin := 0; sent_for := A |} in
  let lost := {| status := 404; json := Throw |} in
  let found := {| status := 200;
                  json := Ok (VObj [("versions", VArr [VNum 11])]) |} in
  rq ∈ in_flight pg
  ∧ instances (respond rq found (unmount 0 pg)) = instances (unmount 0 pg)
  ∧ instances (respond rq lost pg) = instances pg
  ∧ instances (respond rq found pg) !! 0
    = Some {| inst_props := B;
              inst_state := setMediaVersions (VArr [VNum 11]) initial |}.
Proof.
  intros A B pg rq lost found.
  assert (rq ∈ in_flight pg) as Hin.
  { replace (in_flight pg) with [rq; {| origin := 0; sent_for := B |}]
      by (vm_compute; reflexivity).
    apply list_elem_of_here. }
  assert (instances pg !! origin rq
          = Some {| inst_props := B; inst_state := initial |}) as Hpg.
  { unfold pg, update, mount. simpl. rewrite lookup_insert_eq. simpl.
    apply lookup_insert_eq. }
  assert (item_id B ≠ item_id (sent_for rq)) as Hne by (simpl; lia).
  split; [exact Hin |]. split; [| split].
  - apply (proj1 (late_response rq found (unmount 0 pg) Hin)).
    apply lookup_delete_eq.
  - apply (proj2 (late_response rq lost pg Hin) _ Hpg Hne).
    left. simpl. lia.
  - apply (proj2 (late_response rq found pg Hin) _ Hpg Hne).
Defined.

(** The response for item 1 arrives after the popup has gone on to item
    2, and the list of the popup showing item 2 is replaced by the
    versions of item 1. *)
Lemma stale_response_overwrites :
  let A := {| item_id := 1; token := "t" |} in
  let B := {| item_id := 2; token := "t" |} in
  let pg := update 0 B (mount A empty_page) in
  let rq := {| origin := 0; sent_for := A |} in
  let res := {| status := 200;
                json := Ok (VObj [("versions", VArr [VNum 11])]) |} in
  rq ∈ in_flight pg
  ∧ instances pg !! 0
    = Some {| inst_props := B; inst_state := initial |}
  ∧ instances (respond rq res pg) !! 0
    = Some {| inst_props := B;
              inst_state := setMediaVersions (VArr [VNum 11]) initial |}
  ∧ instances (respond rq res pg) !! 0 ≠ instances pg !! 0.
Proof.
  intros A B pg rq res.
  assert (rq ∈ in_flight pg) as Hin.
  { replace (in_flight pg) with [rq; {| origin := 0; sent_for := B |}]
      by (vm_compute; reflexivity).
    apply list_elem_of_here. }
  assert (instances pg !! 0
          = Some {| inst_props := B; inst_state := initial |}) as Hpg.
  { unfold pg, update, mount. simpl. rewrite lookup_insert_eq. simpl.
    apply lookup_insert_eq. }
  split; [exact Hin |]. split; [exact Hpg |].
  rewrite (respond_instances rq res pg Hin).
  change (origin rq) with 0. rewrite Hpg. cbv beta iota.
  rewrite lookup_insert_eq.
  split; [reflexivity | intros E; vm_compute in E; discriminate E].
Qed.

(** ** Further properties of the popup *)

(** *** Placement over several runs of the effect *)

Lemma placement_effect_direction (r : rect) (V : Z) (st : popup_state) :
  direction (placement_effect r V st)
  = if overflowing r V then "card-popup-left" else direction st.
Proof. unfold placement_effect. by destruct (overflowing r V). Qed.

Lemma placements_snoc (runs : list (rect * Z)) (m : rect * Z)
    (st : popup_state) :
  placements (runs ++ [m]) st
  = placement_effect m.1 m.2 (placements runs st).
Proof. unfold placements. by rewrite foldl_app. Qed.

(** X1.  However often the placement effect runs on a popup, the popup
    opens to the left exactly when one of the runs measured an overflow:
    once to the left it never goes back to the right. *)
Theorem placement_sticky (runs : list (rect * Z)) :
  (direction (placements runs initial) = "card-popup-left"
     ↔ ∃ m, m ∈ runs ∧ overflowing m.1 m.2 = true)
  ∧ (direction (placements runs initial) = "card-popup-right"
     ↔ ∀ m, m ∈ runs → overflowing m.1 m.2 = false).
Proof.
  induction runs as [|m runs [IHl IHr]] using rev_ind.
  - split; split; try done.
    + intros (m & Hm & _). by apply elem_of_nil in Hm.
    + intros _ m Hm. by apply elem_of_nil in Hm.
  - rewrite placements_snoc, placement_effect_direction.
    destruct (overflowing m.1 m.2) eqn:E.
    + split; split; try done.
      * intros _. exists m. split; [| done].
        apply elem_of_app. right. apply list_elem_of_here.
      * intros H. rewrite H in E; [done |].
        apply elem_of_app. right. apply list_elem_of_here.
    + split; split.
      * intros H. apply IHl in H as (m' & Hm' & Ho). exists m'.
        split; [| done]. apply elem_of_app. by left.
      * intros (m' & Hm' & Ho). apply IHl.
        apply elem_of_app in Hm' as [Hm' | Hm']; [by exists m' |].
        apply list_elem_of_singleton in Hm'. subst m'. congruence.
      * intros H m' Hm'. apply elem_of_app in Hm' as [Hm' | Hm'].
        -- by apply IHr.
        -- apply list_elem_of_singleton in Hm'. by subst m'.
      * intros H. apply IHr. intros m' Hm'. apply H.
        apply elem_of_app. by left.
Qed.

(** *** The two effects side by side *)

(** X2.  The placement effect and the arrival of a response do not get
    in each other's way: a placement leaves the list of media versions
    alone, a response leaves the side alone, and the two can happen in
    either order. *)
Theorem effects_commute (r : rect) (V : Z) (res : response)
    (st : popup_state) :
  mediaVersions (placement_effect r V st) = mediaVersions st
  ∧ direction (receive res st) = direction st
  ∧ st_overflowing (receive res st) = st_overflowing st
  ∧ placement_effect r V (receive res st)
    = receive res (placement_effect r V st).
Proof.
  unfold placement_effect, receive.
  destruct (overflowing r V), (versions_of res) as [[v|]|]; done.
Qed.

(** *** Responses one after the other *)

(** X3.  Of two responses the one that arrives last decides: if it
    carries versions, the list is what it would be without the earlier
    response; if it carries none, the list is what the earlier response
    left. *)
Theorem last_response_wins (r1 r2 : response) (st : popup_state) :
  (∀ v, versions_of r2 = Ok (Some v) →
     receive r2 (receive r1 st) = receive r2 st)
  ∧ ((∀ v, versions_of r2 ≠ Ok (Some v)) →
     receive r2 (receive r1 st) = receive r1 st).
Proof.
  split.
  - intros v Hv. unfold receive. rewrite Hv.
    by destruct (versions_of r1) as [[v1|]|].
  - intros H. unfold receive at 1.
    destruct (versions_of r2) as [[v|]|]; [| done | done].
    by destruct (H v).
Qed.

Lemma last_response_wins_witness :
  let first := {| status := 200;
                  json := Ok (VObj [("versions", VArr [VNum 1])]) |} in
  let second := {| status := 200;
                   json := Ok (VObj [("versions", VArr [VNum 2])]) |} in
  let failed := {| status := 500; json := Throw |} in
  versions_of second = Ok (Some (VArr [VNum 2]))
  ∧ mediaVersions (receive second (receive first initial)) = VArr [VNum 2]
  ∧ (∀ v, versions_of failed ≠ Ok (Some v))
  ∧ mediaVersions (receive failed (receive first initial)) = VArr [VNum 1].
Proof.
  intros first second failed.
  assert (versions_of second = Ok (Some (VArr [VNum 2]))) as H2
    by reflexivity.
  assert (∀ v, versions_of failed ≠ Ok (Some v)) as Hf
    by (intros v; discriminate).
  split; [exact H2 |]. split; [| split; [exact Hf |]].
  - rewrite (proj1 (last_response_wins first second initial) _ H2).
    reflexivity.
  - rewrite (proj2 (last_response_wins first failed initial) Hf).
    reflexivity.
Defined.

(** X4.  The list of media versions changes only through a response with
    status 200, a body that is JSON and a payload whose [error] does not
    hold. *)
Theorem update_needs_success (res : response) (st : popup_state) :
  receive res st ≠ st → ∃ payload, accepted res payload ∧ ¬ refused res.
Proof.
  intros H.
  destruct (decide (status res = 200%Z)) as [Hs|Hs]; last first.
  { destruct H. unfold receive.
    by rewrite (refused_versions_of res (or_introl Hs)). }
  destruct (json res) as [payload|] eqn:Hj; last first.
  { destruct H. unfold receive, versions_of. rewrite Hs, Hj. done. }
  destruct (get payload "error") as [error|] eqn:He; last first.
  { destruct H. unfold receive, versions_of. rewrite Hs, Hj. simpl.
    rewrite He. done. }
  destruct (truthy error) eqn:Ht.
  { destruct H. unfold receive.
    rewrite (refused_versions_of res); [done |].
    right. by exists payload, error. }
  exists payload. split; [by repeat split; eauto |].
  intros [Hn | (p & e & Hp & Hg & Hte)]; [done |].
  congruence.
Qed.

Lemma update_needs_success_witness :
  let res := {| status := 200;
                json := Ok (VObj [("versions", VArr [VNum 4])]) |} in
  receive res initial ≠ initial
  ∧ ∃ payload, accepted res payload.
Proof.
  intros res.
  assert (receive res initial ≠ initial) as H by discriminate.
  split; [exact H |].
  destruct (update_needs_success res initial H) as (payload & Ha & _).
  exists payload. exact Ha.
Defined.

(** X5.  A payload that announces seasons but has no first season, or
    whose first season has no first episode, makes the rest of the async
    function throw: the list stays what it was, it is not emptied.  A
    payload with neither seasons nor versions sets the list to
    [undefined]. *)
Theorem misshapen_payload (res : response)
    (fields : list (string * value)) (st : popup_state) :
  accepted res (VObj fields) →
  (field "seasons" fields = VArr [] →
     versions_of res = Throw ∧ receive res st = st)
  ∧ (∀ season rest,
       field "seasons" fields = VArr (VObj season :: rest) →
       field "episodes" season = VUndefined
       ∨ field "episodes" season = VNull
       ∨ field "episodes" season = VArr [] →
       versions_of res = Throw ∧ receive res st = st)
  ∧ (field "seasons" fields = VUndefined →
     field "versions" fields = VUndefined →
     versions_of res = Ok (Some VUndefined)
     ∧ mediaVersions (receive res st) = VUndefined).
Proof.
  intros Ha. pose proof (accepted_versions_of res _ Ha) as K.
  simpl in K. split; [| split].
  - intros E. rewrite E in K. simpl in K.
    unfold receive. by rewrite K.
  - intros season rest E Hep. rewrite E in K. simpl in K.
    assert (versions_of res = Throw) as T
      by (rewrite K; by destruct Hep as [-> | [-> | ->]]).
    unfold receive. by rewrite T.
  - intros E Ev. rewrite E in K. simpl in K. rewrite Ev in K.
    unfold receive. by rewrite K.
Qed.

Lemma misshapen_payload_witness :
  let res := {| status := 200; json := Ok (VObj [("seasons", VArr [])]) |} in
  let old := setMediaVersions (VArr [VNum 1]) initial in
  accepted res (VObj [("seasons", VArr [])])
  ∧ versions_of res = Throw
  ∧ mediaVersions (receive res old) = VArr [VNum 1].
Proof.
  intros res old.
  assert (accepted res (VObj [("seasons", VArr [])])) as H.
  { repeat split. exists VUndefined. split; reflexivity. }
  split; [exact H |].
  destruct (proj1 (misshapen_payload res _ old H) eq_refl) as [T R].
  split; [exact T |]. by rewrite R.
Defined.

(** *** Description *)

(** X6.  The description section throws for an [undefined] description
    and for no other; every string that is not empty is handed to
    TruncText as it is. *)
Theorem description_cases (d : description) :
  (render_description d = Throw ↔ d = DUndefined)
  ∧ (∀ s, d = DString s → s ≠ "" →
       render_description d = Ok (TruncText (VStr s))).
Proof.
  split.
  - destruct d as [| |s]; split; try done.
    unfold render_description. simpl.
    destruct (Z.of_nat (String.length s) >? 0)%Z; discriminate.
  - intros s -> Hs. unfold render_description. simpl.
    destruct s as [|c s]; [done |]. reflexivity.
Qed.

Lemma description_cases_witness :
  render_description (DString "A heist goes wrong.")
  = Ok (TruncText (VStr "A heist goes wrong.")).
Proof.
  apply (proj2 (description_cases (DString "A heist goes wrong.")) _ eq_refl).
  discriminate.
Defined.

(** *** Length, read back *)

Lemma digit_value_digit (k : N) : (k < 10)%N → digit_value (digit k) = k.
Proof.
  intros H. unfold digit_value, digit.
  rewrite N_ascii_embedding by lia. lia.
Qed.

Lemma two_digits_value (n : N) :
  (n < 100)%N →
  (10 * digit_value (digit ((n `div` 10) `mod` 10))
   + digit_value (digit (n `mod` 10)) = n)%N.
Proof.
  intros H.
  assert (n `div` 10 < 10)%N as Hq
    by (apply N.Div0.div_lt_upper_bound; lia).
  rewrite (N.mod_small (n `div` 10) 10) by done.
  rewrite !digit_value_digit by (done || apply N.mod_lt; lia).
  symmetry. apply N.div_mod. lia.
Qed.

Lemma read_length_two_digits (h m sec : N) :
  read_length (two_digits h +:+ ":" +:+ two_digits m +:+ ":"
               +:+ two_digits sec)
  = Some (
      (10 * digit_value (digit ((h `div` 10) `mod` 10))
       + digit_value (digit (h `mod` 10))) * 3600
      + (10 * digit_value (digit ((m `div` 10) `mod` 10))
         + digit_value (digit (m `mod` 10))) * 60
      + (10 * digit_value (digit ((sec `div` 10) `mod` 10))
         + digit_value (digit (sec `mod` 10))))%N.
Proof. reflexivity. Qed.

(** X7.  Below a hundred hours the length shown determines the
    duration: reading [hh:mm:ss] back gives the seconds it was made
    from. *)
Theorem length_round_trip (d : N) :
  (d < 360000)%N → read_length (render_length d) = Some d.
Proof.
  intros H. unfold render_length, length_of. simpl.
  rewrite !pad2_two_digits, read_length_two_digits.
  assert (d `mod` 3600 < 3600)%N as Hr by (apply N.mod_lt; lia).
  assert (d `div` 3600 < 100)%N as Hh
    by (apply N.Div0.div_lt_upper_bound; lia).
  assert ((d `mod` 3600) `div` 60 < 100)%N as Hm
    by (apply N.Div0.div_lt_upper_bound; lia).
  assert ((d `mod` 3600) `mod` 60 < 100)%N as Hs.
  { pose proof (N.mod_lt (d `mod` 3600) 60 ltac:(lia)). lia. }
  rewrite !two_digits_value by done.
  f_equal.
  pose proof (N.div_mod d 3600 ltac:(lia)).
  pose proof (N.div_mod (d `mod` 3600) 60 ltac:(lia)). lia.
Qed.

Lemma length_round_trip_witness :
  (86399 < 360000)%N ∧ read_length (render_length 86399) = Some 86399%N.
Proof.
  assert (86399 < 360000)%N as H by lia.
  split; [exact H |]. apply (length_round_trip 86399 H).
Defined.

Lemma two_digits_wrap (n : N) : two_digits (n + 100) = two_digits n.
Proof.
  unfold two_digits.
  replace ((n + 100) `mod` 10)%N with (n `mod` 10)%N
    by (change 100%N with (10 * 10)%N; by rewrite N.Div0.mod_add).
  replace (((n + 100) `div` 10) `mod` 10)%N with ((n `div` 10) `mod` 10)%N;
    [done |].
  change 100%N with (10 * 10)%N. rewrite N.div_add by lia.
  change 10%N with (1 * 10)%N at 4. by rewrite N.Div0.mod_add.
Qed.

(** X8.  The hours wrap around at a hundred: a duration and the same
    duration plus 100 hours are shown alike, so that 100 hours show as
    00:00:00. *)
Theorem length_wraps (d : N) :
  render_length (d + 360000) = render_length d
  ∧ render_length 360000 = render_length 0.
Proof.
  assert (∀ d, render_length (d + 360000) = render_length d) as K.
  { clear d. intros d. unfold render_length, length_of. simpl.
    rewrite !pad2_two_digits.
    replace ((d + 360000) `mod` 3600)%N with (d `mod` 3600)%N
      by (change 360000%N with (100 * 3600)%N; by rewrite N.Div0.mod_add).
    replace ((d + 360000) `div` 3600)%N with (d `div` 3600 + 100)%N
      by (change 360000%N with (100 * 3600)%N; by rewrite N.div_add).
    by rewrite two_digits_wrap. }
  split; [apply K | apply (K 0%N)].
Qed.

(** *** Genres, rendered again *)

(** X9.  A second render shows the same genres as the first and leaves
    the store as the first left it; a summary with at most three genres
    is not changed by any render. *)
Theorem genres_render_again (encodeURIComponent : string → string)
    (g : ref) (σ : store) (items : list string) :
  σ !! g = Some items →
  ∃ links σ',
    render_genres encodeURIComponent g σ = Ok (links, σ')
    ∧ render_genres encodeURIComponent g σ' = Ok (links, σ')
    ∧ (length items ≤ 3 → σ' = σ).
Proof.
  intros H. eexists _, _.
  split; [by apply render_genres_eq |]. split.
  - rewrite (render_genres_eq _ g _ (take 3 items))
      by apply lookup_insert_eq.
    by rewrite take_take, insert_insert_eq.
  - intros Hl. rewrite take_ge by done. by apply insert_id.
Qed.

Lemma genres_render_again_witness :
  let σ : store :=
    {[ 1%positive := ["Action"; "Crime"; "Drama"; "Thriller"] ]} in
  σ !! 1%positive = Some ["Action"; "Crime"; "Drama"; "Thriller"]
  ∧ ∃ links σ',
      render_genres id 1%positive σ = Ok (links, σ')
      ∧ render_genres id 1%positive σ' = Ok (links, σ').
Proof.
  intros σ.
  assert (σ !! 1%positive = Some ["Action"; "Crime"; "Drama"; "Thriller"])
    as H by reflexivity.
  split; [exact H |].
  destruct (genres_render_again id 1%positive σ _ H)
    as (links & σ' & E1 & E2 & _).
  exists links, σ'. split; [exact E1 | exact E2].
Defined.

(** *** When the fetch effect runs *)

Lemma rerender_from (ps : list props) (pg : page) (prev : props)
    (st : popup_state) :
  instances pg !! 0 = Some {| inst_props := prev; inst_state := st |} →
  in_flight (rerender ps pg)
  = in_flight pg
    ++ ((λ pr, {| origin := 0; sent_for := pr |}) <$> changes prev ps)
  ∧ instances (rerender ps pg) !! 0
    = Some {| inst_props := default prev (last ps); inst_state := st |}.
Proof.
  unfold rerender. revert pg prev.
  induction ps as [|pr ps IH]; intros pg prev H; simpl.
  - by rewrite app_nil_r.
  - assert (instances (update 0 pr pg) !! 0
            = Some {| inst_props := pr; inst_state := st |}) as H'.
    { unfold update. rewrite H. simpl. apply lookup_insert_eq. }
    destruct (IH _ _ H') as [IH1 IH2]. rewrite IH1, IH2. split.
    + unfold update. rewrite H. simpl.
      destruct (decide (prev = pr)) as [_|_]; [done |].
      by rewrite <- app_assoc.
    + rewrite last_cons. by destruct (last ps).
Qed.

(** X10.  However often a popup is rendered again, its effect sends one
    request when it is mounted and one for each render whose id or token
    differs from the render before, in that order and for those props;
    renders that repeat the props send nothing, no request is taken
    back, and without a response the popup keeps its initial list. *)
Theorem requests_per_change (first : props) (ps : list props) :
  in_flight (rerender ps (mount first empty_page))
  = (λ pr, {| origin := 0; sent_for := pr |}) <$> first :: changes first ps
  ∧ instances (rerender ps (mount first empty_page)) !! 0
    = Some {| inst_props := default first (last ps);
              inst_state := initial |}.
Proof.
  apply (rerender_from ps (mount first empty_page) first initial).
  apply lookup_insert_eq.
Qed.

(** *** Keys are not used twice *)

Lemma keys_below_step (pg : page) (e : page_event) :
  keys_below pg → keys_below (page_step pg e).
Proof.
  intros [Hi Hf]. destruct e as [pr|k pr|k|rq res]; simpl.
  - split; simpl.
    + intros k inst. rewrite lookup_insert.
      destruct (decide (next_instance pg = k)) as [<-|_];
        [intros _; lia | intros Hk%Hi; lia].
    + intros rq [Hq%Hf | Hq%list_elem_of_singleton]%elem_of_app;
        [lia | subst rq; simpl; lia].
  - unfold update. destruct (instances pg !! k) as [inst|] eqn:E;
      [| by split].
    split; simpl.
    + intros k' inst'. rewrite lookup_insert.
      destruct (decide (k = k')) as [<-|_];
        [intros _; by apply (Hi k inst) | apply Hi].
    + destruct (decide (inst_props inst = pr)) as [_|_]; [exact Hf |].
      intros rq [Hq%Hf | Hq%list_elem_of_singleton]%elem_of_app; [done |].
      subst rq. simpl. by apply (Hi k inst).
  - split; simpl; [| exact Hf].
    intros k' inst'. rewrite lookup_delete.
    destruct (decide (k = k')) as [_|_]; [done | apply Hi].
  - unfold respond.
    destruct (decide (rq ∈ in_flight pg)) as [Hin|_]; [| by split].
    split; simpl.
    + destruct (instances pg !! origin rq) as [inst|] eqn:E; [| exact Hi].
      intros k' inst'. rewrite lookup_insert.
      destruct (decide (origin rq = k')) as [<-|_];
        [intros _; by apply (Hi _ inst) | apply Hi].
    + intros rq' Hq. apply Hf. clear -Hq.
      induction (in_flight pg) as [|r l IH]; simpl in Hq; [done |].
      destruct (decide (rq = r)) as [_|_];
        [by apply list_elem_of_further |].
      apply elem_of_cons in Hq as [-> | Hq];
        [apply list_elem_of_here | by apply list_elem_of_further, IH].
Qed.

Lemma keys_below_run (evs : list page_event) : keys_below (page_run evs).
Proof.
  unfold page_run. induction evs as [|e evs IH] using rev_ind.
  - split; [intros k inst H; simpl in H; by rewrite lookup_empty in H |].
    intros rq H. by apply elem_of_nil in H.
  - rewrite foldl_app. simpl. by apply keys_below_step.
Qed.

(** X11.  On any page, whatever was mounted, rendered again, unmounted
    and answered before: a popup that is mounted now is not reached by
    the response to any request that was in flight before it, it keeps
    its initial state. *)
Theorem new_popup_untouched (evs : list page_event) (rq : request)
    (res : response) (pr : props) :
  rq ∈ in_flight (page_run evs) →
  origin rq ≠ next_instance (page_run evs)
  ∧ instances (respond rq res (mount pr (page_run evs)))
      !! next_instance (page_run evs)
    = Some {| inst_props := pr; inst_state := initial |}.
Proof.
  intros Hin. destruct (keys_below_run evs) as [_ Hf].
  pose proof (Hf rq Hin) as Hlt.
  split; [lia |].
  rewrite respond_instances
    by (simpl; apply elem_of_app; by left).
  destruct (instances (mount pr (page_run evs)) !! origin rq) as [inst|].
  - rewrite lookup_insert_ne by lia. apply lookup_insert_eq.
  - apply lookup_insert_eq.
Qed.

Lemma new_popup_untouched_witness :
  let A := {| item_id := 1; token := "t" |} in
  let B := {| item_id := 2; token := "t" |} in
  let rq := {| origin := 0; sent_for := A |} in
  let res := {| status := 200;
                json := Ok (VObj [("versions", VArr [VNum 11])]) |} in
  rq ∈ in_flight (page_run [Mount A; Unmount 0])
  ∧ instances (respond rq res (mount B (page_run [Mount A; Unmount 0])))
      !! 1
    = Some {| inst_props := B; inst_state := initial |}.
Proof.
  intros A B rq res.
  assert (rq ∈ in_flight (page_run [Mount A; Unmount 0])) as H
    by apply list_elem_of_here.
  split; [exact H |].
  apply (proj2 (new_popup_untouched [Mount A; Unmount 0] rq res B H)).
Defined.

(** *** Animation events *)

(** X12.  After any number of animation events the parent still hovers
    exactly when it hovered before and none of the events was named
    CardPopupHide: events of other animations close nothing, and one
    CardPopupHide closes for good. *)
Theorem animations_close (names : list string) (hovering : bool) :
  animations names hovering = true
  ↔ hovering = true ∧ "CardPopupHide" ∉ names.
Proof.
  unfold animations. revert hovering.
  induction names as [|n names IH]; intros h; simpl.
  - split; [intros ->; split; [done | apply not_elem_of_nil] | by intros []].
  - rewrite IH, not_elem_of_cons. unfold onAnimationEnd.
    destruct (String.eqb n "CardPopupHide") eqn:E; simpl.
    + apply String.eqb_eq in E. subst n. split.
      * intros [Hf _]. discriminate Hf.
      * intros (_ & Hne & _). by destruct Hne.
    + apply String.eqb_neq in E. split.
      * intros [Hh Hn]. split; [done |]. split; [| done].
        intros Heq. apply E. by symmetry.
      * intros (Hh & _ & Hn). by split.
Qed.

(** *** The address of the request *)

Lemma string_app_inv_tail (s1 s2 t : string) :
  s1 +:+ t = s2 +:+ t → s1 = s2.
Proof.
  revert s2. induction s1 as [|c s1 IH]; intros [|c2 s2] H.
  - done.
  - change (t = String c2 (s2 +:+ t)) in H.
    apply (f_equal String.length) in H. simpl in H.
    rewrite string_length_app in H. lia.
  - change (String c (s1 +:+ t) = t) in H.
    apply (f_equal String.length) in H. simpl in H.
    rewrite string_length_app in H. lia.
  - rewrite !string_app_cons in H. injection H as -> H.
    f_equal. by apply IH.
Qed.

(** X13.  For one host, the effect asks for different ids at different
    addresses and sends the token as it is: the call determines the id
    and the token. *)
Theorem media_info_inj (host : string) (id1 id2 : N) (t1 t2 : string) :
  media_info host id1 t1 = media_info host id2 t2 → id1 = id2 ∧ t1 = t2.
Proof.
  unfold media_info, number_to_string. intros H.
  pose proof (f_equal url H) as Hu.
  pose proof (f_equal authorization H) as Ht. simpl in Hu, Ht.
  split; [| done].
  apply (String.app_inj "//") in Hu. apply (String.app_inj host) in Hu.
  apply (String.app_inj ":8000/api/v1/media/") in Hu.
  apply string_app_inv_tail in Hu. by apply pretty_N_inj in Hu.
Qed.

Lemma media_info_inj_witness :
  media_info "dim.local" 42 "token" = media_info "dim.local" 42 "token"
  ∧ (42 = 42)%N.
Proof.
  split; [reflexivity |].
  apply (media_info_inj "dim.local" 42 42 "token" "token" eq_refl).
Defined.

End CardPopupSpec.

Module ActionTypesSpec.

Import ActionTypes.

(** X14.  The nineteen action types are pairwise different strings. *)
Theorem action_types_distinct : NoDup exported ∧ length exported = 19.
Proof.
  split; [| reflexivity].
  apply (bool_decide_unpack _). vm_compute. reflexivity.
Qed.

End ActionTypesSpec.

Module CardSpec.

Import Card.

(** ** Time *)

Lemma elapse_no_timer (ms : nat) (w : world) :
  timers w = [] → elapse ms w = w.
Proof. destruct w as [c ts n a l]. simpl. intros ->. reflexivity. Qed.

Lemma elapse_early (ms id left : nat) (w : world) :
  timers w = [(id, left)] → ms < left →
  elapse ms w
  = {| card := card w; timers := [(id, left - ms)];
       next_timer := next_timer w; awaiting := awaiting w; log := log w |}.
Proof.
  intros Ht Hlt. unfold elapse. rewrite Ht. simpl. unfold due. simpl.
  assert ((left <=? ms) = false) as -> by (apply Nat.leb_gt; lia).
  reflexivity.
Qed.

Lemma elapse_fires (ms id left : nat) (w : world) :
  timers w = [(id, left)] → left ≤ ms →
  elapse ms w
  = renderCardPopout
      {| card := card w; timers := []; next_timer := next_timer w;
         awaiting := awaiting w; log := log w |}.
Proof.
  intros Ht Hle. unfold elapse. rewrite Ht. simpl. unfold due. simpl.
  assert ((left <=? ms) = true) as -> by (apply Nat.leb_le; lia).
  reflexivity.
Qed.

(** ** Histories in which no enter lasts *)

Lemma brief_held (e : nat) (evs : list (nat * event)) (tail : nat) :
  brief (Some e) evs tail = true → e < D.
Proof.
  revert e. induction evs as [|[ms ev] evs IH]; intros e H; simpl in H.
  - apply Nat.ltb_lt in H. lia.
  - destruct ev.
    + apply andb_true_iff in H as [H _]. apply Nat.ltb_lt in H. lia.
    + apply IH in H. lia.
    + apply IH in H. lia.
Qed.

Lemma tracks_elapse (e ms : nat) (w : world) :
  tracks (Some e) w → e + ms < D → tracks (Some (e + ms)) (elapse ms w).
Proof.
  intros [[Ha Hl] (He & Hh & id & Ht & Hid)] Hlt.
  rewrite (elapse_early ms id (D - e) w Ht) by lia.
  repeat split; simpl; try done.
  exists id. split; [f_equal; f_equal; lia | done].
Qed.

Lemma tracks_elapse_idle (ms : nat) (w : world) :
  tracks None w → elapse ms w = w.
Proof. intros [_ (Ht & _)]. by apply elapse_no_timer. Qed.

Lemma tracks_leave (e : nat) (w : world) :
  tracks (Some e) w → tracks None (handleMouseHover w).
Proof.
  intros [[Ha Hl] (He & Hh & id & Ht & Hid)].
  unfold handleMouseHover. rewrite Hid.
  unfold set_hovering, set_hoverTimeout, clearTimeout, with_card. simpl.
  rewrite Hh, Ht. simpl. rewrite Nat.eqb_refl. simpl.
  repeat split; simpl; done.
Qed.

Lemma tracks_enter (w : world) :
  tracks None w → tracks (Some 0) (handleMouseHover w).
Proof.
  intros [[Ha Hl] (Ht & Hn & Hh)].
  unfold handleMouseHover.
  destruct (hoverTimeout (card w)) as [| |id] eqn:E; try done;
    (repeat split; simpl; try done; [unfold D; lia |];
     exists (next_timer w); by rewrite Ht).
Qed.

Lemma tracks_poster (held : option nat) (url : string) (w : world) :
  tracks held w → tracks held (onLoadPoster url w).
Proof.
  intros [[Ha Hl] H].
  destruct held; repeat split; simpl; apply H || done.
Qed.

Lemma tracks_settled (held : option nat) (r : settlement) (w : world) :
  tracks held w → resume r w = w.
Proof. intros [[Ha _] _]. unfold resume. by rewrite Ha. Qed.

Lemma brief_tracks (evs : list (nat * event)) (tail : nat)
    (held : option nat) (w : world) :
  brief held evs tail = true → tracks held w →
  quiet (elapse tail (run evs w))
  ∧ hovering (card (elapse tail (run evs w))) = false.
Proof.
  revert held w. induction evs as [|[ms ev] evs IH]; intros held w Hb Hw.
  - simpl in *. destruct held as [e|].
    + apply Nat.ltb_lt in Hb.
      destruct (tracks_elapse e tail w Hw Hb) as [Hq (_ & Hh & _)]. done.
    + rewrite (tracks_elapse_idle tail w Hw). destruct Hw as [Hq (_ & _ & Hh)].
      done.
  - simpl run. destruct ev as [|url|r]; simpl in Hb.
    + destruct held as [e|].
      * apply andb_true_iff in Hb as [Hlt Hb]. apply Nat.ltb_lt in Hlt.
        apply (IH None); [done |].
        apply (tracks_leave (e + ms)). by apply tracks_elapse.
      * apply (IH (Some 0)); [done |]. simpl.
        rewrite (tracks_elapse_idle ms w Hw). by apply tracks_enter.
    + destruct held as [e|]; simpl in Hb.
      * apply (IH (Some (e + ms))); [done |]. simpl.
        apply tracks_poster, tracks_elapse; [done |].
        by apply (brief_held _ evs tail).
      * apply (IH None); [done |]. simpl.
        rewrite (tracks_elapse_idle ms w Hw). by apply tracks_poster.
    + destruct held as [e|]; simpl in Hb.
      * apply (IH (Some (e + ms))); [done |]. simpl.
        assert (tracks (Some (e + ms)) (elapse ms w)) as Hw'.
        { apply tracks_elapse; [done |]. by apply (brief_held _ evs tail). }
        by rewrite (tracks_settled _ r _ Hw').
      * apply (IH None); [done |]. simpl.
        rewrite (tracks_elapse_idle ms w Hw).
        by rewrite (tracks_settled _ r _ Hw).
Qed.

Lemma tracks_boot : tracks None boot.
Proof. repeat split. Qed.

(** ** The accent along any history *)

Lemma sound_emit (e : effect) (w : world) : sound w → sound (emit e w).
Proof.
  intros [Hd [[a Ha] | Hc]]; (split; [done |]); [left | by right].
  exists a. simpl. apply elem_of_app. by left.
Qed.

Lemma sound_set_hovering (b : bool) (w : world) :
  sound w → sound (set_hovering b w).
Proof.
  intros H. unfold set_hovering.
  destruct (hovering (card w)), b; try apply sound_emit; exact H.
Qed.

Lemma sound_handleMouseHover (w : world) :
  sound w → sound (handleMouseHover w).
Proof.
  intros H. unfold handleMouseHover.
  destruct (hoverTimeout (card w)); try exact H.
  apply sound_set_hovering. exact H.
Qed.

Lemma sound_renderCardPopout (w : world) :
  sound w → sound (renderCardPopout w).
Proof.
  intros H. unfold renderCardPopout, toggle_hovering.
  apply (sound_emit Activated) in H.
  destruct (accentDone (card (emit Activated w))),
    (posterBlob (card (emit Activated w)));
    try (by apply sound_set_hovering).
  by apply (sound_emit (PaletteRequested s)) in H.
Qed.

Lemma sound_resume (r : settlement) (w : world) :
  sound w → sound (resume r w).
Proof.
  intros H. unfold resume. destruct (awaiting w) as [|n]; [done |].
  destruct r as [[c|]|]; try exact H.
  unfold toggle_hovering. apply sound_set_hovering.
  destruct H as [Hd _]. split; [done |]. left.
  eexists. simpl. apply elem_of_app. right. apply list_elem_of_here.
Qed.

Lemma sound_iter (n : nat) (w : world) :
  sound w → sound (Nat.iter n renderCardPopout w).
Proof.
  intros H. induction n as [|n IH]; [done |].
  simpl. by apply sound_renderCardPopout.
Qed.

Lemma sound_elapse (ms : nat) (w : world) : sound w → sound (elapse ms w).
Proof. intros H. unfold elapse. apply sound_iter. exact H. Qed.

Lemma sound_run (evs : list (nat * event)) (w : world) :
  sound w → sound (run evs w).
Proof.
  revert w. induction evs as [|[ms ev] evs IH]; intros w H; [done |].
  simpl. apply IH. apply (sound_elapse ms) in H.
  destruct ev; simpl;
    [by apply sound_handleMouseHover | exact H | by apply sound_resume].
Qed.

Lemma sound_observe (evs : list (nat * event)) (tail : nat) :
  sound (observe evs tail).
Proof.
  apply sound_elapse, sound_run. split; [done | by right].
Qed.

Lemma accent_renderCardPopout (w : world) :
  accent (card (renderCardPopout w)) = accent (card w).
Proof.
  unfold renderCardPopout, toggle_hovering, set_hovering. simpl.
  by destruct (accentDone (card w)), (posterBlob (card w)),
    (hovering (card w)).
Qed.

Lemma accent_iter (n : nat) (w : world) :
  accent (card (Nat.iter n renderCardPopout w)) = accent (card w).
Proof.
  induction n as [|n IH]; [done |].
  simpl. by rewrite accent_renderCardPopout.
Qed.

Lemma accent_elapse (ms : nat) (w : world) :
  accent (card (elapse ms w)) = accent (card w).
Proof. unfold elapse. by rewrite accent_iter. Qed.

Lemma accent_handleMouseHover (w : world) :
  accent (card (handleMouseHover w)) = accent (card w).
Proof.
  unfold handleMouseHover, set_hovering.
  destruct (hoverTimeout (card w)); simpl; try done.
  by destruct (hovering (card w)).
Qed.

Lemma accent_resume (r : settlement) (w : world) :
  accent (card (resume r w)) = accent (card w)
  ∨ ∃ c, r = Resolved (Some c) ∧ accent (card (resume r w)) = colours c.
Proof.
  unfold resume, toggle_hovering, set_hovering.
  destruct (awaiting w); [by left |].
  destruct r as [[c|]|]; simpl; try by left.
  right. exists c. split; [done |].
  by destruct (hovering (card w)).
Qed.

Lemma accent_run (evs : list (nat * event)) (w : world) :
  accent (card (run evs w)) ∈ accent (card w) :: delivered evs.
Proof.
  revert w. induction evs as [|[ms ev] evs IH]; intros w.
  { apply list_elem_of_here. }
  simpl run. specialize (IH (dispatch ev (elapse ms w))).
  destruct ev as [|url|r]; simpl in *.
  - by rewrite accent_handleMouseHover, accent_elapse in IH.
  - by rewrite accent_elapse in IH.
  - destruct (accent_resume r (elapse ms w)) as [E | (c & -> & E)];
      rewrite E in IH.
    + rewrite accent_elapse in IH.
      destruct r as [[c|]|]; [| done | done].
      apply elem_of_cons in IH as [-> | IH];
        [apply list_elem_of_here | by do 2 apply list_elem_of_further].
    + by apply list_elem_of_further.
Qed.

Lemma no_swatch_delivered (evs : list (nat * event)) :
  no_swatch evs = true → delivered evs = [].
Proof.
  induction evs as [|[ms ev] evs IH]; [done |].
  unfold no_swatch. simpl. intros [H1 H2]%andb_true_iff.
  destruct ev as [|url|[[c|]|]]; try discriminate H1; by apply IH.
Qed.

(** C8.  At any time in any history of a card in which no palette with
    a Vibrant swatch has arrived, that is, before any extraction has run
    to its end, whatever else has happened (toggles, timers that fired,
    posters that loaded, palettes that were rejected or came without a
    swatch), the accent is the one of the constructor, #f7931e on
    #ffffff. *)
Theorem accent_default (evs : list (nat * event)) (tail : nat) :
  no_swatch evs = true →
  accent (card (observe evs tail))
  = {| background := "#f7931e"; text := "#ffffff" |}.
Proof.
  intros H. unfold observe. rewrite accent_elapse.
  pose proof (accent_run evs boot) as Hin.
  rewrite (no_swatch_delivered evs H) in Hin.
  by apply list_elem_of_singleton in Hin.
Qed.

Lemma accent_default_witness :
  let failing :=
    [(0, PosterLoaded "blob:1"); (10, PointerToggle);
     (700, PaletteSettled Rejected); (20, PointerToggle);
     (30, PointerToggle); (650, PaletteSettled (Resolved None))] in
  no_swatch failing = true
  ∧ awaiting (observe failing 5) = 0
  ∧ accent (card (observe failing 5))
    = {| background := "#f7931e"; text := "#ffffff" |}.
Proof.
  intros failing.
  assert (no_swatch failing = true) as H by reflexivity.
  split; [exact H |]. split; [reflexivity |].
  apply (accent_default failing 5 H).
Defined.

(** C9.  At any time in any history of a card the guard [accentDone] is
    false, so a call of [renderCardPopout] that finds the poster loaded
    asks for its palette again. *)
Theorem accent_guard_never_set (evs : list (nat * event)) (tail : nat) :
  accentDone (card (observe evs tail)) = false
  ∧ ∀ blob,
      posterBlob (card (observe evs tail)) = Some blob →
      log (renderCardPopout (observe evs tail))
      = log (observe evs tail) ++ [Activated; PaletteRequested blob]
      ∧ awaiting (renderCardPopout (observe evs tail))
        = S (awaiting (observe evs tail)).
Proof.
  destruct (sound_observe evs tail) as [Hd _]. split; [exact Hd |].
  intros blob Hb. unfold renderCardPopout. simpl. rewrite Hd, Hb. simpl.
  by rewrite <- app_assoc.
Qed.

(** After one extraction has run to its end, the next sustained hover
    asks for the palette once more. *)
Lemma accent_guard_never_set_witness :
  let done :=
    [(0, PosterLoaded "blob:1"); (10, PointerToggle);
     (700, PaletteSettled
             (Resolved (Some {| getHex := "#204060";
                                getTitleTextColor := "#fff" |})));
     (50, PointerToggle)] in
  posterBlob (card (observe done 0)) = Some "blob:1"
  ∧ extracted (observe done 0)
  ∧ log (renderCardPopout (observe done 0))
    = log (observe done 0) ++ [Activated; PaletteRequested "blob:1"].
Proof.
  intros done.
  assert (posterBlob (card (observe done 0)) = Some "blob:1") as H
    by reflexivity.
  split; [exact H |]. split.
  - eexists. vm_compute. do 2 apply list_elem_of_further.
    apply list_elem_of_here.
  - apply (proj2 (accent_guard_never_set done 0) "blob:1" H).
Defined.

(** ** Hover intent *)

Lemma enter_sets_timer (w : world) :
  idle w →
  timers (handleMouseHover w) = [(next_timer w, D)]
  ∧ hoverTimeout (card (handleMouseHover w)) = HTimer (next_timer w)
  ∧ log (handleMouseHover w) = log w
  ∧ awaiting (handleMouseHover w) = awaiting w
  ∧ card (handleMouseHover w)
    = card (set_hoverTimeout (HTimer (next_timer w)) w).
Proof.
  intros (Ht & Hn & _). unfold handleMouseHover.
  destruct (hoverTimeout (card w)); try done; simpl; by rewrite Ht.
Qed.

Lemma leave_cancels (id left : nat) (w : world) :
  hoverTimeout (card w) = HTimer id → timers w = [(id, left)] →
  hovering (card w) = false →
  timers (handleMouseHover w) = []
  ∧ log (handleMouseHover w) = log w
  ∧ awaiting (handleMouseHover w) = awaiting w
  ∧ card (handleMouseHover w) = card (set_hoverTimeout HNull w).
Proof.
  intros Hid Ht Hh. unfold handleMouseHover. rewrite Hid.
  unfold set_hovering. simpl. rewrite Hh. simpl. rewrite Ht. simpl.
  rewrite Nat.eqb_refl. simpl. repeat split.
Qed.

Lemma log_renderCardPopout (w : world) :
  log (renderCardPopout w) = log w ++ [Activated; first_reaction (card w)].
Proof.
  unfold renderCardPopout, first_reaction, toggle_hovering, set_hovering.
  simpl.
  destruct (accentDone (card w)), (posterBlob (card w)),
    (hovering (card w)); simpl; by rewrite <- app_assoc.
Qed.

Lemma timers_renderCardPopout (w : world) :
  timers (renderCardPopout w) = timers w.
Proof.
  unfold renderCardPopout, toggle_hovering, set_hovering. simpl.
  by destruct (accentDone (card w)), (posterBlob (card w)),
    (hovering (card w)).
Qed.

Lemma hovering_renderCardPopout (w : world) :
  posterBlob (card w) = None →
  hovering (card (renderCardPopout w)) = negb (hovering (card w)).
Proof.
  intros Hp. unfold renderCardPopout, toggle_hovering, set_hovering. simpl.
  rewrite Hp. by destruct (accentDone (card w)), (hovering (card w)).
Qed.

(** What has happened stays in the log. *)
Lemma log_handleMouseHover (w : world) :
  ∃ l, log (handleMouseHover w) = log w ++ l.
Proof.
  unfold handleMouseHover, set_hovering.
  destruct (hoverTimeout (card w)); simpl;
    try (exists []; by rewrite app_nil_r).
  destruct (hovering (card w)); simpl; eauto.
  exists []. by rewrite app_nil_r.
Qed.

Lemma log_resume (r : settlement) (w : world) :
  ∃ l, log (resume r w) = log w ++ l.
Proof.
  unfold resume, toggle_hovering, set_hovering.
  destruct (awaiting w); [exists []; by rewrite app_nil_r |].
  destruct r as [[c|]|]; simpl; try (exists []; by rewrite app_nil_r).
  destruct (hovering (card w)); simpl; rewrite <- ?app_assoc; eauto.
Qed.

Lemma log_iter (n : nat) (w : world) :
  ∃ l, log (Nat.iter n renderCardPopout w) = log w ++ l.
Proof.
  induction n as [|n [l IH]]; [exists []; by rewrite app_nil_r |].
  simpl. rewrite log_renderCardPopout, IH, <- app_assoc. eauto.
Qed.

Lemma log_elapse (ms : nat) (w : world) :
  ∃ l, log (elapse ms w) = log w ++ l.
Proof.
  unfold elapse.
  match goal with
  | |- context [Nat.iter ?n _ ?w0] => destruct (log_iter n w0) as [l H]
  end.
  exists l. exact H.
Qed.

Lemma log_run (evs : list (nat * event)) (w : world) :
  ∃ l, log (run evs w) = log w ++ l.
Proof.
  revert w. induction evs as [|[ms ev] evs IH]; intros w.
  { exists []. by rewrite app_nil_r. }
  simpl. destruct (IH (dispatch ev (elapse ms w))) as [l ->].
  destruct (log_elapse ms w) as [l1 H1].
  assert (∃ l2, log (dispatch ev (elapse ms w)) = log (elapse ms w) ++ l2)
    as [l2 H2].
  { destruct ev; simpl;
      [apply log_handleMouseHover | exists []; by rewrite app_nil_r
      | apply log_resume]. }
  rewrite H2, H1, <- !app_assoc. eauto.
Qed.

Lemma run_app (evs more : list (nat * event)) (w : world) :
  run (evs ++ more) w = run more (run evs w).
Proof.
  revert w. induction evs as [|[ms ev] evs IH]; intros w; simpl;
    [done | apply IH].
Qed.

(** A history that ends with an empty log had an empty log all along. *)
Lemma log_empty_before (evs more : list (nat * event)) (tail : nat) :
  log (observe (evs ++ more) tail) = [] → log (run evs boot) = [].
Proof.
  unfold observe. rewrite run_app. intros H.
  destruct (log_elapse tail (run more (run evs boot))) as [l1 H1].
  destruct (log_run more (run evs boot)) as [l2 H2].
  rewrite H, H2, <- app_assoc in H1. symmetry in H1.
  by apply app_eq_nil in H1 as [H1 _].
Qed.

(** ** Further properties of the card *)

(** *** What a call of a method leaves alone *)

Lemma renderCardPopout_frame (w : world) :
  timers (renderCardPopout w) = timers w
  ∧ next_timer (renderCardPopout w) = next_timer w
  ∧ hoverTimeout (card (renderCardPopout w)) = hoverTimeout (card w)
  ∧ posterBlob (card (renderCardPopout w)) = posterBlob (card w).
Proof.
  unfold renderCardPopout, toggle_hovering, set_hovering. simpl.
  destruct (accentDone (card w)), (posterBlob (card w)) eqn:E,
    (hovering (card w)); simpl; by rewrite ?E.
Qed.

Lemma resume_frame (r : settlement) (w : world) :
  timers (resume r w) = timers w
  ∧ next_timer (resume r w) = next_timer w
  ∧ hoverTimeout (card (resume r w)) = hoverTimeout (card w)
  ∧ posterBlob (card (resume r w)) = posterBlob (card w).
Proof.
  unfold resume, toggle_hovering, set_hovering.
  destruct (awaiting w); [done |].
  destruct r as [[c|]|]; simpl; try done.
  by destruct (hovering (card w)).
Qed.

Lemma handleMouseHover_poster (w : world) :
  posterBlob (card (handleMouseHover w)) = posterBlob (card w).
Proof.
  unfold handleMouseHover, set_hovering.
  destruct (hoverTimeout (card w)); simpl; try done.
  by destruct (hovering (card w)).
Qed.

Lemma iter_frame (n : nat) (w : world) :
  timers (Nat.iter n renderCardPopout w) = timers w
  ∧ next_timer (Nat.iter n renderCardPopout w) = next_timer w
  ∧ hoverTimeout (card (Nat.iter n renderCardPopout w))
    = hoverTimeout (card w)
  ∧ posterBlob (card (Nat.iter n renderCardPopout w)) = posterBlob (card w).
Proof.
  induction n as [|n (IH1 & IH2 & IH3 & IH4)]; [done |]. simpl.
  destruct (renderCardPopout_frame (Nat.iter n renderCardPopout w))
    as (H1 & H2 & H3 & H4).
  by rewrite H1, H2, H3, H4.
Qed.

(** *** One timer at a time *)

Lemma one_timer_elapse (ms : nat) (w : world) :
  one_timer w → one_timer (elapse ms w).
Proof.
  intros [Ht | (id & left & Ht & Hid & Hn & Hl)].
  - rewrite elapse_no_timer by done. by left.
  - destruct (decide (left ≤ ms)) as [Hle | Hgt].
    + rewrite (elapse_fires ms id left w Ht Hle). left.
      by rewrite (proj1 (renderCardPopout_frame _)).
    + rewrite (elapse_early ms id left w Ht) by lia. right.
      exists id, (left - ms). simpl. repeat split; try done; lia.
Qed.

Lemma one_timer_handleMouseHover (w : world) :
  one_timer w → one_timer (handleMouseHover w).
Proof.
  intros H. unfold handleMouseHover.
  destruct (hoverTimeout (card w)) as [| |id] eqn:E.
  - destruct H as [Ht | (id & left & Ht & Hid & _)]; [| congruence].
    right. exists (next_timer w), 600. simpl. rewrite Ht.
    repeat split; unfold D; lia.
  - destruct H as [Ht | (id & left & Ht & Hid & _)]; [| congruence].
    right. exists (next_timer w), 600. simpl. rewrite Ht.
    repeat split; unfold D; lia.
  - left. unfold set_hovering. simpl.
    assert (List.filter (λ t : nat * nat, negb (t.1 =? id)) (timers w) = [])
      as Hf.
    { destruct H as [-> | (id' & left & -> & Hid & _)]; [done |].
      assert (id' = id) as -> by congruence.
      simpl. by rewrite Nat.eqb_refl. }
    by destruct (hovering (card w)).
Qed.

Lemma one_timer_frame (w w' : world) :
  timers w' = timers w → next_timer w' = next_timer w →
  hoverTimeout (card w') = hoverTimeout (card w) →
  one_timer w → one_timer w'.
Proof. unfold one_timer. intros -> -> ->. done. Qed.

Lemma one_timer_run (evs : list (nat * event)) (w : world) :
  one_timer w → one_timer (run evs w).
Proof.
  revert w. induction evs as [|[ms ev] evs IH]; intros w H; [done |].
  simpl. apply IH. apply (one_timer_elapse ms) in H.
  destruct ev as [|url|r]; simpl.
  - by apply one_timer_handleMouseHover.
  - exact H.
  - destruct (resume_frame r (elapse ms w)) as (H1 & H2 & H3 & _).
    by apply (one_timer_frame (elapse ms w)).
Qed.

(** X15.  At any time in any history of a card at most one timer is
    pending; a pending timer is the one [state.hoverTimeout] names and
    fires within 600 ms.  Timers do not pile up, however the pointer
    moves. *)
Theorem single_timer (evs : list (nat * event)) (tail : nat) :
  one_timer (observe evs tail)
  ∧ length (timers (observe evs tail)) ≤ 1.
Proof.
  assert (one_timer (observe evs tail)) as H.
  { apply one_timer_elapse, one_timer_run. by left. }
  split; [exact H |].
  destruct H as [-> | (id & left & -> & _)]; simpl; lia.
Qed.

(** *** What the log adds up to *)

Lemma count_app (kind : effect → bool) (l1 l2 : list effect) :
  count kind (l1 ++ l2) = count kind l1 + count kind l2.
Proof. unfold count. by rewrite List.filter_app, length_app. Qed.

Ltac tally :=
  rewrite ?count_app in *; unfold count in *; simpl in *.

Lemma tally_set_hovering (b : bool) (w : world) :
  balanced w →
  balanced (set_hovering b w)
  ∧ count is_activation (log (set_hovering b w))
    = count is_activation (log w)
  ∧ count is_request (log (set_hovering b w)) = count is_request (log w)
  ∧ count is_accent (log (set_hovering b w)) = count is_accent (log w)
  ∧ count is_mount (log (set_hovering b w)) ≤ S (count is_mount (log w))
  ∧ (b = false →
     count is_mount (log (set_hovering b w)) = count is_mount (log w))
  ∧ awaiting (set_hovering b w) = awaiting w.
Proof.
  unfold balanced, set_hovering. intros H.
  destruct (hovering (card w)), b; simpl; tally; repeat split;
    intros; lia || done.
Qed.

Lemma tally_handleMouseHover (w : world) :
  balanced w ∧ caused w →
  balanced (handleMouseHover w) ∧ caused (handleMouseHover w).
Proof.
  intros [Hb Hc]. unfold handleMouseHover.
  destruct (hoverTimeout (card w)) as [| |id]; try done.
  set (w1 := set_hoverTimeout HNull (clearTimeout id w)).
  assert (balanced w1) as Hb1 by exact Hb.
  destruct (tally_set_hovering false w1 Hb1)
    as (B & A & R & C & _ & M & W).
  split; [exact B |].
  unfold caused in *. rewrite A, R, C, W, (M eq_refl).
  exact Hc.
Qed.

Lemma tally_emit_activated (w : world) :
  balanced w ∧ caused w →
  balanced (emit Activated w)
  ∧ count is_accent (log (emit Activated w)) + awaiting w
    ≤ count is_request (log (emit Activated w))
  ∧ S (count is_request (log (emit Activated w)))
    ≤ count is_activation (log (emit Activated w))
  ∧ S (count is_mount (log (emit Activated w)) + awaiting w)
    ≤ count is_activation (log (emit Activated w)).
Proof.
  unfold balanced, caused. intros (Hb & H1 & H2 & H3).
  simpl. tally. repeat split; lia.
Qed.

Lemma tally_renderCardPopout (w : world) :
  balanced w ∧ caused w →
  balanced (renderCardPopout w) ∧ caused (renderCardPopout w).
Proof.
  intros H. destruct (tally_emit_activated w H) as (Hb1 & H1 & H2 & H3).
  unfold renderCardPopout, toggle_hovering.
  set (w1 := emit Activated w) in *.
  change (awaiting w) with (awaiting w1) in *.
  destruct (accentDone (card w1)), (posterBlob (card w1)) as [blob|];
    try (destruct (tally_set_hovering (negb (hovering (card w1))) w1 Hb1)
           as (B & A & R & C & M & _ & W);
         split; [exact B |]; unfold caused; rewrite A, R, C, W; lia).
  clearbody w1. unfold balanced, caused in *. simpl. tally.
  repeat split; lia.
Qed.

Lemma tally_resume (r : settlement) (w : world) :
  balanced w ∧ caused w → balanced (resume r w) ∧ caused (resume r w).
Proof.
  intros [Hb Hc]. unfold resume. destruct (awaiting w) as [|n] eqn:E;
    [done |].
  unfold caused in Hc. rewrite E in Hc.
  destruct r as [[c|]|].
  - unfold toggle_hovering.
    set (a := {| background := getHex c; text := getTitleTextColor c |}).
    set (w1 := set_accent a (with_awaiting n w)).
    assert (balanced w1
            ∧ count is_accent (log w1) + awaiting w1
              ≤ count is_request (log w1)
            ∧ count is_request (log w1) ≤ count is_activation (log w1)
            ∧ S (count is_mount (log w1) + awaiting w1)
              ≤ count is_activation (log w1)) as (Hb1 & H1 & H2 & H3).
    { unfold balanced in *. unfold w1. simpl. tally. repeat split; lia. }
    destruct (tally_set_hovering (negb (hovering (card w1))) w1 Hb1)
      as (B & A & R & C & M & _ & W).
    split; [exact B |]. unfold caused. rewrite A, R, C, W. lia.
  - split; [exact Hb |]. unfold caused. simpl. lia.
  - split; [exact Hb |]. unfold caused. simpl. lia.
Qed.

Lemma tally_iter (n : nat) (w : world) :
  balanced w ∧ caused w →
  balanced (Nat.iter n renderCardPopout w)
  ∧ caused (Nat.iter n renderCardPopout w).
Proof.
  intros H. induction n as [|n IH]; [done |].
  simpl. by apply tally_renderCardPopout.
Qed.

Lemma tally_elapse (ms : nat) (w : world) :
  balanced w ∧ caused w → balanced (elapse ms w) ∧ caused (elapse ms w).
Proof. intros H. unfold elapse. apply tally_iter. exact H. Qed.

Lemma tally_run (evs : list (nat * event)) (w : world) :
  balanced w ∧ caused w → balanced (run evs w) ∧ caused (run evs w).
Proof.
  revert w. induction evs as [|[ms ev] evs IH]; intros w H; [done |].
  simpl. apply IH. apply (tally_elapse ms) in H.
  destruct ev as [|url|r]; simpl.
  - by apply tally_handleMouseHover.
  - exact H.
  - by apply tally_resume.
Qed.

(** X16.  At any time in any history of a card: no palette is requested
    without a timer having fired for it, no accent is set without a
    palette request that has settled, and no popup is mounted without a
    timer having fired whose call is no longer suspended; the popup has
    been mounted once more than unmounted exactly while the card
    hovers. *)
Theorem effects_accounted (evs : list (nat * event)) (tail : nat) :
  let w := observe evs tail in
  count is_accent (log w) + awaiting w ≤ count is_request (log w)
  ∧ count is_request (log w) ≤ count is_activation (log w)
  ∧ count is_mount (log w) + awaiting w ≤ count is_activation (log w)
  ∧ count is_mount (log w)
    = count is_unmount (log w) + (if hovering (card w) then 1 else 0).
Proof.
  intros w.
  assert (balanced w ∧ caused w) as [Hb (H1 & H2 & H3)].
  { apply tally_elapse, tally_run. split; [reflexivity |].
    unfold caused, count. simpl. lia. }
  done.
Qed.

(** *** The accent the popup is drawn with *)

(** X17.  Whatever the history of a card, a popup that [render] returns
    is given the data of the card and an accent that is either the one
    of the constructor or the colours of a swatch that arrived in that
    history: the card shows no colour that node-vibrant did not
    deliver. *)
Theorem popup_accent (evs : list (nat * event)) (tail : nat)
    (data d : card_data) (a : accent_theme) :
  popup (render data (card (observe evs tail))) = Some (d, a) →
  d = data
  ∧ (a = {| background := "#f7931e"; text := "#ffffff" |}
     ∨ a ∈ delivered evs).
Proof.
  unfold render. simpl.
  destruct (hovering (card (observe evs tail))); [| done].
  intros [= <- <-]. split; [done |].
  unfold observe. rewrite accent_elapse.
  pose proof (accent_run evs boot) as Hin.
  apply elem_of_cons in Hin as [-> | Hin]; [by left | by right].
Qed.

Lemma popup_accent_witness :
  let hover :=
    [(0, PosterLoaded "blob:1"); (10, PointerToggle);
     (700, PaletteSettled (Resolved (Some {| getHex := "#204060";
                                            getTitleTextColor := "#fff" |})))]
  in
  let data := {| name := "Heat"; poster_path := VStr "/p/heat.jpg" |} in
  let a := {| background := "#204060"; text := "#fff" |} in
  popup (render data (card (observe hover 0))) = Some (data, a)
  ∧ a ∈ delivered hover.
Proof.
  intros hover data a.
  assert (popup (render data (card (observe hover 0))) = Some (data, a))
    as H by reflexivity.
  split; [exact H |].
  destruct (popup_accent hover 0 data data a H) as [_ [E | Hin]];
    [discriminate E | exact Hin].
Defined.

(** *** The poster *)

Lemma poster_elapse (ms : nat) (w : world) :
  posterBlob (card (elapse ms w)) = posterBlob (card w).
Proof.
  unfold elapse.
  match goal with
  | |- context [Nat.iter ?n _ ?w0] =>
      destruct (iter_frame n w0) as (_ & _ & _ & H)
  end.
  exact H.
Qed.

Lemma poster_run (evs : list (nat * event)) (w : world) :
  posterBlob (card (run evs w)) = last_poster (posterBlob (card w)) evs.
Proof.
  revert w. induction evs as [|[ms ev] evs IH]; intros w; [done |].
  simpl. rewrite IH. destruct ev as [|url|r]; simpl.
  - by rewrite handleMouseHover_poster, poster_elapse.
  - done.
  - by rewrite (proj2 (proj2 (proj2 (resume_frame r _)))), poster_elapse.
Qed.

(** X18.  At any time in any history of a card, [state.posterBlob] is
    the url of the poster that loaded last, and [undefined] as long as
    none has loaded: nothing but [onLoadPoster] writes it, and nothing
    takes it back. *)
Theorem poster_is_last_loaded (evs : list (nat * event)) (tail : nat) :
  posterBlob (card (observe evs tail)) = last_poster None evs.
Proof. unfold observe. by rewrite poster_elapse, poster_run. Qed.

(** *** A hover that lasts *)

Lemma enter_fires (w : world) (t : nat) :
  idle w → D ≤ t →
  elapse t (handleMouseHover w)
  = renderCardPopout
      {| card := card (set_hoverTimeout (HTimer (next_timer w)) w);
         timers := []; next_timer := S (next_timer w);
         awaiting := awaiting w; log := log w |}.
Proof.
  intros (Ht & Hn & _) Hle. unfold handleMouseHover.
  destruct (hoverTimeout (card w)); try done;
    by rewrite (elapse_fires t (next_timer w) 600)
      by (simpl; by rewrite ?Ht).
Qed.

(** X19.  On an idle card whose poster has not loaded, an enter that
    lasts 600 ms or more mounts the popup and leaves the handle of the
    timer that fired in the state; the leave that follows takes that
    handle for a pending timer, unmounts the popup at once and leaves
    the card idle again. *)
Theorem hover_then_leave (w : world) (t : nat) :
  idle w → posterBlob (card w) = None → D ≤ t →
  let w1 := elapse t (handleMouseHover w) in
  let w2 := handleMouseHover w1 in
  hovering (card w1) = true
  ∧ timers w1 = []
  ∧ hoverTimeout (card w1) = HTimer (next_timer w)
  ∧ idle w2
  ∧ hoverTimeout (card w2) = HNull
  ∧ log w2 = log w ++ [Activated; PopupMounted; PopupUnmounted].
Proof.
  intros Hi Hp Ht. rewrite (enter_fires w t Hi Ht).
  destruct w as [[hov to ht pb ad ac] ts n aw l]. unfold idle in Hi.
  simpl in *. destruct Hi as (-> & Hn & ->). subst pb.
  unfold renderCardPopout, toggle_hovering, set_hovering,
    handleMouseHover, idle; simpl.
  destruct ad; simpl; rewrite <- ?app_assoc; repeat split.
Qed.

Lemma hover_then_leave_witness :
  idle boot ∧ posterBlob (card boot) = None ∧ D ≤ 750
  ∧ log (handleMouseHover (elapse 750 (handleMouseHover boot)))
    = [Activated; PopupMounted; PopupUnmounted].
Proof.
  assert (idle boot) as Hi by (repeat split).
  assert (D ≤ 750) as Hd by (unfold D; lia).
  split; [exact Hi |]. split; [reflexivity |]. split; [exact Hd |].
  apply (hover_then_leave boot 750 Hi eq_refl Hd).
Defined.

(** *** Extractions *)

(** X20.  When the palette promise is rejected, or the palette has no
    Vibrant swatch, the call of [renderCardPopout] ends at its [await]:
    the popup of that hover is never mounted, the accent stays, and no
    timer is left that could still show it. *)
Theorem failed_extraction (w : world) (t : nat) (blob : string)
    (r : settlement) :
  idle w → posterBlob (card w) = Some blob →
  accentDone (card w) = false → D ≤ t →
  r = Rejected ∨ r = Resolved None →
  let w1 := resume r (elapse t (handleMouseHover w)) in
  hovering (card w1) = false
  ∧ accent (card w1) = accent (card w)
  ∧ timers w1 = []
  ∧ awaiting w1 = awaiting w
  ∧ log w1 = log w ++ [Activated; PaletteRequested blob].
Proof.
  intros Hi Hp Hd Ht Hr. rewrite (enter_fires w t Hi Ht).
  destruct w as [[hov to ht pb ad ac] ts n aw l]. unfold idle in Hi.
  simpl in *. destruct Hi as (-> & Hn & ->). subst pb ad.
  unfold renderCardPopout, resume; simpl.
  destruct Hr as [-> | ->]; simpl; rewrite <- ?app_assoc; repeat split.
Qed.

Lemma failed_extraction_witness :
  let w := onLoadPoster "blob:1" boot in
  idle w ∧ posterBlob (card w) = Some "blob:1" ∧ D ≤ 600
  ∧ log (resume Rejected (elapse 600 (handleMouseHover w)))
    = [Activated; PaletteRequested "blob:1"]
  ∧ hovering (card (resume Rejected (elapse 600 (handleMouseHover w))))
    = false.
Proof.
  intros w.
  assert (idle w) as Hi by (repeat split).
  assert (D ≤ 600) as Hd by (unfold D; lia).
  destruct (failed_extraction w 600 "blob:1" Rejected Hi eq_refl eq_refl Hd
              (or_introl eq_refl)) as (H1 & _ & _ & _ & H5).
  split; [exact Hi |]. split; [reflexivity |]. split; [exact Hd |].
  split; [exact H5 | exact H1].
Defined.

(** X21.  When the palette arrives with a Vibrant swatch while the
    pointer is still on the card, the accent becomes the hex and the
    title text colour of that swatch and the popup is mounted, in that
    order. *)
Theorem finished_extraction (w : world) (t : nat) (blob : string)
    (color : swatch) :
  idle w → posterBlob (card w) = Some blob →
  accentDone (card w) = false → D ≤ t →
  let a := {| background := getHex color;
              text := getTitleTextColor color |} in
  let w1 := resume (Resolved (Some color)) (elapse t (handleMouseHover w)) in
  hovering (card w1) = true
  ∧ accent (card w1) = a
  ∧ awaiting w1 = awaiting w
  ∧ log w1
    = log w ++ [Activated; PaletteRequested blob; AccentSet a; PopupMounted].
Proof.
  intros Hi Hp Hd Ht. rewrite (enter_fires w t Hi Ht).
  destruct w as [[hov to ht pb ad ac] ts n aw l]. unfold idle in Hi.
  simpl in *. destruct Hi as (-> & Hn & ->). subst pb ad.
  unfold renderCardPopout, resume; simpl.
  rewrite <- ?app_assoc; repeat split.
Qed.

Lemma finished_extraction_witness :
  let w := onLoadPoster "blob:1" boot in
  let color := {| getHex := "#204060"; getTitleTextColor := "#fff" |} in
  idle w ∧ D ≤ 600
  ∧ accent (card (resume (Resolved (Some color))
                    (elapse 600 (handleMouseHover w))))
    = {| background := "#204060"; text := "#fff" |}.
Proof.
  intros w color.
  assert (idle w) as Hi by (repeat split).
  assert (D ≤ 600) as Hd by (unfold D; lia).
  split; [exact Hi |]. split; [exact Hd |].
  apply (finished_extraction w 600 "blob:1" color Hi eq_refl eq_refl Hd).
Defined.

(** X22.  When the pointer leaves while the palette is being computed,
    the leave hides nothing and empties the handle; the palette that
    arrives afterwards mounts the popup all the same, on a card with no
    timer pending and an empty handle. *)
Theorem popup_after_leave (w : world) (t t' : nat) (blob : string)
    (color : swatch) :
  idle w → posterBlob (card w) = Some blob →
  accentDone (card w) = false → D ≤ t →
  let left := handleMouseHover (elapse t (handleMouseHover w)) in
  let w1 := resume (Resolved (Some color)) (elapse t' left) in
  log left = log w ++ [Activated; PaletteRequested blob]
  ∧ hovering (card w1) = true
  ∧ hoverTimeout (card w1) = HNull
  ∧ timers w1 = []
  ∧ count is_mount (log w1) = S (count is_mount (log w)).
Proof.
  intros Hi Hp Hd Ht. rewrite (enter_fires w t Hi Ht).
  destruct w as [[hov to ht pb ad ac] ts n aw l]. unfold idle in Hi.
  simpl in *. destruct Hi as (-> & Hn & ->). subst pb ad.
  unfold renderCardPopout, handleMouseHover, set_hovering; simpl.
  unfold resume, elapse; simpl. rewrite <- ?app_assoc. repeat split.
  rewrite count_app. unfold count. simpl. lia.
Qed.

Lemma popup_after_leave_witness :
  let w := onLoadPoster "blob:1" boot in
  let color := {| getHex := "#204060"; getTitleTextColor := "#fff" |} in
  idle w ∧ D ≤ 600
  ∧ hovering
      (card (resume (Resolved (Some color))
               (elapse 40
                  (handleMouseHover (elapse 600 (handleMouseHover w))))))
    = true.
Proof.
  intros w color.
  assert (idle w) as Hi by (repeat split).
  assert (D ≤ 600) as Hd by (unfold D; lia).
  split; [exact Hi |]. split; [exact Hd |].
  apply (popup_after_leave w 600 40 "blob:1" color Hi eq_refl eq_refl Hd).
Defined.

(** ** Hover intent, from any state of a card *)

Lemma free_timers (w : world) :
  one_timer w → nullish (hoverTimeout (card w)) → timers w = [].
Proof.
  intros [Ht | (id & left & _ & Hid & _)] Hn; [done |].
  rewrite Hid in Hn. done.
Qed.

Lemma free_enter_fires (w : world) (t : nat) :
  timers w = [] → nullish (hoverTimeout (card w)) → D ≤ t →
  elapse t (handleMouseHover w)
  = renderCardPopout
      {| card := card (set_hoverTimeout (HTimer (next_timer w)) w);
         timers := []; next_timer := S (next_timer w);
         awaiting := awaiting w; log := log w |}.
Proof.
  intros Ht Hn Hle. unfold handleMouseHover.
  destruct (hoverTimeout (card w)); try done;
    by rewrite (elapse_fires t (next_timer w) 600)
      by (simpl; by rewrite ?Ht).
Qed.

Lemma free_enter_waits (w : world) (ms : nat) :
  timers w = [] → nullish (hoverTimeout (card w)) → ms < D →
  elapse ms (handleMouseHover w)
  = {| card := card (set_hoverTimeout (HTimer (next_timer w)) w);
       timers := [(next_timer w, 600 - ms)];
       next_timer := S (next_timer w);
       awaiting := awaiting w; log := log w |}.
Proof.
  intros Ht Hn Hlt. unfold handleMouseHover.
  destruct (hoverTimeout (card w)); try done;
    by rewrite (elapse_early ms (next_timer w) 600)
      by (simpl; by rewrite ?Ht).
Qed.

(** C1, as the code has it.  [w] is the card at any time of any history.
    (1) Along a history in which every enter is followed by a leave less
    than 600 ms later, nothing ever happens: no call of
    [renderCardPopout], no palette request, no popup mounted (and so no
    fetch by a popup).
    (2) When the handle is empty, a toggle that is left alone for 600 ms
    or more calls [renderCardPopout] exactly once and leaves no timer.
    With no poster loaded that call flips the popup at once: it mounts
    it on a card that shows none.  With a poster loaded the call asks
    for the palette and waits: the popup is flipped, after the accent is
    set, only when the palette arrives with a Vibrant swatch; when the
    palette is rejected or has no swatch, nothing is mounted and nothing
    else changes.
    (3) When the handle is empty, a toggle followed by another less than
    600 ms later cancels the timer, calls nothing, and leaves the card
    with [hovering] false and a null handle: a card that showed no popup
    is as it was, a card that showed one (after a leave during an
    extraction) has it unmounted. *)
Theorem hover_debounce (evs : list (nat * event)) (tail ms t : nat)
    (r : settlement) :
  let w := observe evs tail in
  (brief None evs tail = true →
     log w = [] ∧ awaiting w = 0 ∧ hovering (card w) = false)
  ∧ (nullish (hoverTimeout (card w)) → D ≤ t →
     let w1 := elapse t (handleMouseHover w) in
     timers w1 = []
     ∧ log w1 = log w ++ [Activated; first_reaction (card w)]
     ∧ (posterBlob (card w) = None →
        first_reaction (card w)
        = (if hovering (card w) then PopupUnmounted else PopupMounted)
        ∧ hovering (card w1) = negb (hovering (card w)))
     ∧ (∀ blob, posterBlob (card w) = Some blob →
        first_reaction (card w) = PaletteRequested blob
        ∧ hovering (card w1) = hovering (card w)
        ∧ awaiting w1 = S (awaiting w)
        ∧ timers (resume r w1) = []
        ∧ match r with
          | Resolved (Some c) =>
              accent (card (resume r w1)) = colours c
              ∧ hovering (card (resume r w1)) = negb (hovering (card w))
              ∧ log (resume r w1)
                = log w1
                  ++ [AccentSet (colours c);
                      if hovering (card w) then PopupUnmounted
                      else PopupMounted]
          | Resolved None | Rejected =>
              accent (card (resume r w1)) = accent (card w)
              ∧ hovering (card (resume r w1)) = hovering (card w)
              ∧ log (resume r w1) = log w1
          end))
  ∧ (nullish (hoverTimeout (card w)) → ms < D →
     let w2 := handleMouseHover (elapse ms (handleMouseHover w)) in
     timers w2 = []
     ∧ awaiting w2 = awaiting w
     ∧ card w2
       = {| hovering := false; timeout := timeout (card w);
            hoverTimeout := HNull; posterBlob := posterBlob (card w);
            accentDone := accentDone (card w);
            accent := accent (card w) |}
     ∧ log w2
       = log w ++ (if hovering (card w) then [PopupUnmounted] else [])).
Proof.
  intros w.
  assert (one_timer w) as Ho
    by (apply one_timer_elapse, one_timer_run; by left).
  destruct (sound_observe evs tail) as [Hd _]. fold w in Hd.
  split; [| split].
  - intros Hb.
    destruct (brief_tracks evs tail None boot Hb tracks_boot)
      as [[Ha Hl] Hh]. done.
  - clearbody w. intros Hn Ht.
    pose proof (free_timers w Ho Hn) as Hts.
    rewrite (free_enter_fires w t Hts Hn Ht).
    destruct w as [[hov to ht pb ad ac] ts n aw l]. simpl in *.
    subst ad ts. unfold renderCardPopout, first_reaction. simpl.
    destruct pb as [blob|]; simpl.
    + split; [done |]. split; [by rewrite <- app_assoc |].
      split; [done |]. intros blob' [= <-].
      unfold resume. simpl.
      destruct r as [[c|]|]; simpl; repeat split;
        destruct hov; simpl; by rewrite <- ?app_assoc.
    + unfold toggle_hovering, set_hovering. simpl.
      destruct hov; simpl; rewrite <- ?app_assoc; repeat split; done.
  - clearbody w. intros Hn Hms.
    pose proof (free_timers w Ho Hn) as Hts.
    rewrite (free_enter_waits w ms Hts Hn Hms).
    destruct w as [[hov to ht pb ad ac] ts n aw l]. simpl in *.
    unfold handleMouseHover, set_hovering. simpl.
    destruct hov; simpl; rewrite Nat.eqb_refl; simpl; rewrite ?app_nil_r;
      repeat split.
Qed.

Lemma hover_debounce_witness :
  let flicker :=
    [(40, PointerToggle); (350, PointerToggle); (5, PosterLoaded "blob:1");
     (120, PointerToggle); (599, PointerToggle); (0, PointerToggle)] in
  let loaded := [(0, PosterLoaded "blob:1")] in
  brief None flicker 599 = true
  ∧ log (observe flicker 599) = []
  ∧ nullish (hoverTimeout (card (observe [] 0))) ∧ D ≤ 600
  ∧ log (elapse 600 (handleMouseHover (observe [] 0)))
    = [Activated; PopupMounted]
  ∧ nullish (hoverTimeout (card (observe loaded 0)))
  ∧ posterBlob (card (observe loaded 0)) = Some "blob:1"
  ∧ hovering
      (card (resume Rejected
               (elapse 600 (handleMouseHover (observe loaded 0)))))
    = false
  ∧ 599 < D
  ∧ log (handleMouseHover (elapse 599 (handleMouseHover (observe [] 0))))
    = [].
Proof.
  intros flicker loaded.
  assert (brief None flicker 599 = true) as Hb by reflexivity.
  assert (nullish (hoverTimeout (card (observe [] 0)))) as Hn0 by exact I.
  assert (nullish (hoverTimeout (card (observe loaded 0)))) as Hn1
    by exact I.
  assert (D ≤ 600) as Hd by (unfold D; lia).
  assert (599 < D) as Hm by (unfold D; lia).
  destruct (hover_debounce flicker 599 599 600 Rejected) as (H1 & _ & _).
  destruct (hover_debounce [] 0 599 600 Rejected) as (_ & H2 & H3).
  destruct (hover_debounce loaded 0 599 600 Rejected) as (_ & H4 & _).
  split; [exact Hb |]. split; [exact (proj1 (H1 Hb)) |].
  split; [exact Hn0 |]. split; [exact Hd |].
  split; [exact (proj1 (proj2 (H2 Hn0 Hd))) |].
  split; [exact Hn1 |]. split; [reflexivity |].
  split.
  - destruct (H4 Hn1 Hd) as (_ & _ & _ & H5).
    destruct (H5 "blob:1" eq_refl) as (_ & _ & _ & _ & _ & H6 & _).
    exact H6.
  - split; [exact Hm |].
    exact (proj2 (proj2 (proj2 (H3 Hn0 Hm)))).
Defined.

(** Two histories in which hover intent is no plain debounce.  In
    [late] the pointer leaves while the palette is being computed, and the palette
    mounts the popup afterwards; the next enter starts a timer, and the
    leave 100 ms later, long before the timer fires, unmounts the popup:
    the pair of toggles is not without effect.  In [failed] one enter
    lasts for good, the palette is rejected, and the popup is never
    mounted. *)
Lemma quick_leave_unmounts_popup :
  let color := {| getHex := "#204060"; getTitleTextColor := "#fff" |} in
  let late :=
    [(0, PosterLoaded "blob:1"); (10, PointerToggle); (700, PointerToggle);
     (100, PaletteSettled (Resolved (Some color)))] in
  let failed :=
    [(0, PosterLoaded "blob:1"); (10, PointerToggle);
     (700, PaletteSettled Rejected)] in
  let w := observe late 0 in
  let w2 := handleMouseHover (elapse 100 (handleMouseHover w)) in
  (hoverTimeout (card w) = HNull
   ∧ hovering (card w) = true
   ∧ timers (handleMouseHover w) = [(2, 600)]
   ∧ 100 < D
   ∧ timers w2 = []
   ∧ hovering (card w2) = false
   ∧ log w2 = log w ++ [PopupUnmounted])
  ∧ (log (observe failed 3000) = [Activated; PaletteRequested "blob:1"]
     ∧ hovering (card (observe failed 3000)) = false
     ∧ timers (observe failed 3000) = []).
Proof.
  intros color late failed w w2.
  split; repeat split. unfold D. lia.
Qed.

End CardSpec.
